(** * Verification of the summarization core of research-assistant

    The development embeds [app/core/summarizer.py]: the input-text
    preparation, the parser of the model's structured output and the
    [summarize] pipeline of [LlamaSummarizer], together with the parts of
    Python's [str] and [re] that this code calls.  The text splitter the
    class instantiates belongs to a third-party package; it is modelled
    from the specification in [Module Chunker].

    It also embeds the way from a URL to the request for an article: the
    reading of the URL in [app/core/extractors/arxiv.py] and
    [app/core/extractors/hal.py], the helpers of [app/utils/helper.py]
    and the dispatch of [app/api/routes.py]. *)

From Stdlib Require Import ZArith NArith Ascii String List Lia Bool.
From stdpp Require Import base list strings gmap.

Set Default Proof Using "Type".
Local Open Scope N_scope.

(** ** Python text

    A Python [str] is a sequence of Unicode code points. *)

Module Text.

Abbreviation char := N.
Abbreviation str := (list N).

(** Embedding of an ASCII literal of the source. *)
Definition py (s : string) : str :=
  (fun a : ascii => N_of_ascii a) <$> list_ascii_of_string s.

Definition LF : char := 10.
Definition nl : str := [LF].

(** [str.isspace] for one character; the same table answers [\s] in a
    [str] pattern. *)
Definition is_space (c : char) : bool :=
  ((9 <=? c) && (c <=? 13)) || ((28 <=? c) && (c <=? 32))
  || (c =? 133) || (c =? 160) || (c =? 5760)
  || ((8192 <=? c) && (c <=? 8202))
  || (c =? 8232) || (c =? 8233) || (c =? 8239) || (c =? 8287)
  || (c =? 12288).

(** Code points of general category Nd (what [\d] matches in a [str]
    pattern), as closed ranges; table of the Unicode database 14.0. *)
Definition Nd_ranges : list (N * N) :=
  [ (48, 57); (1632, 1641); (1776, 1785); (1984, 1993); (2406, 2415);
    (2534, 2543); (2662, 2671); (2790, 2799); (2918, 2927); (3046, 3055);
    (3174, 3183); (3302, 3311); (3430, 3439); (3558, 3567); (3664, 3673);
    (3792, 3801); (3872, 3881); (4160, 4169); (4240, 4249); (6112, 6121);
    (6160, 6169); (6470, 6479); (6608, 6617); (6784, 6793); (6800, 6809);
    (6992, 7001); (7088, 7097); (7232, 7241); (7248, 7257); (42528, 42537);
    (43216, 43225); (43264, 43273); (43472, 43481); (43504, 43513);
    (43600, 43609); (44016, 44025); (65296, 65305); (66720, 66729);
    (68912, 68921); (69734, 69743); (69872, 69881); (69942, 69951);
    (70096, 70105); (70384, 70393); (70736, 70745); (70864, 70873);
    (71248, 71257); (71360, 71369); (71472, 71481); (71904, 71913);
    (72016, 72025); (72784, 72793); (73040, 73049); (73120, 73129);
    (92768, 92777); (92864, 92873); (93008, 93017); (120782, 120831);
    (123200, 123209); (123632, 123641); (125264, 125273);
    (130032, 130041) ].

Definition is_digit (c : char) : bool :=
  existsb (fun r : N * N => (fst r <=? c) && (c <=? snd r)) Nd_ranges.

(** [s.lstrip()], [s.rstrip()] and [s.strip()] with no argument. *)
Fixpoint lstrip (s : str) : str :=
  match s with
  | c :: s' => if is_space c then lstrip s' else s
  | [] => []
  end.

Definition rstrip (s : str) : str := reverse (lstrip (reverse s)).

Definition strip (s : str) : str := rstrip (lstrip s).

(** [sep.join(parts)] *)
Fixpoint join (sep : str) (parts : list str) : str :=
  match parts with
  | [] => []
  | [p] => p
  | p :: rest => p ++ sep ++ join sep rest
  end.

(** [s.startswith(w)] *)
Fixpoint startswith (w s : str) : bool :=
  match w, s with
  | [], _ => true
  | a :: w', b :: s' => (a =? b) && startswith w' s'
  | _ :: _, [] => false
  end.

(** Truth value of a [str]: [bool(s)]. *)
Definition nonempty (s : str) : bool :=
  match s with [] => false | _ :: _ => true end.

End Text.

Import Text.

(** ** Exceptions

    A computation that may raise: [Ok v] is normal completion, [Raise e]
    an exception travelling up to the nearest handler that catches it.
    [exn] holds the exceptions of class [Exception], those that
    [except Exception] catches.  A call of foreign code may also raise
    what derives from [BaseException] only ([KeyboardInterrupt],
    [SystemExit], [GeneratorExit], [asyncio.CancelledError]); [raised]
    holds both kinds. *)

Record exn : Type := Exception { type_name : string }.

Inductive raised : Type :=
| OfException (e : exn)             (* isinstance(e, Exception) *)
| OfBaseException (name : string).  (* a BaseException that is no Exception *)
Coercion OfException : exn >-> raised.

Inductive outcome_of (E A : Type) : Type :=
| Ok (a : A)
| Raise (e : E).
Arguments Ok {E A} a.
Arguments Raise {E A} & e.

(** The computations that raise exceptions of class [Exception] only. *)
Abbreviation outcome := (outcome_of exn).

#[export] Instance outcome_ret {E} : MRet (outcome_of E) := fun _ a => Ok a.
#[export] Instance outcome_bind {E} : MBind (outcome_of E) := fun _ _ f m =>
  match m with Ok a => f a | Raise e => Raise e end.
#[export] Instance outcome_fmap {E} : FMap (outcome_of E) := fun _ _ f m =>
  match m with Ok a => Ok (f a) | Raise e => Raise e end.

(** ** The regular expressions of the parser and their matching

    Python's [re] is a backtracking matcher: alternatives are tried left
    to right, a greedy repetition tries the longest run first, a lazy one
    the shortest, and the first complete match wins.  The matcher below is
    written in continuation-passing style, which gives exactly this
    order. *)

Module Re.

Record flags : Type :=
  { IGNORECASE : bool; DOTALL : bool; MULTILINE : bool }.

(** What one pattern position accepts. *)
Inductive cclass : Type :=
| CLit (c : char)            (* a literal character *)
| CAny                       (* .  *)
| CSpace                     (* \s *)
| CDigit                     (* \d *)
| COneOf (cs : list char).   (* [...] *)

Inductive regex : Type :=
| Eps
| Chr (c : cclass)
| Seq (r1 r2 : regex)
| Alt (r1 r2 : regex)                        (* r1|r2 *)
| Rep (c : cclass) (min : nat) (greedy : bool) (* c*  c+  c*? *)
| Group (r : regex)                          (* the capturing group *)
| Bol                                        (* ^ *)
| Eol.                                       (* $ *)

(** The literal word [w] as a pattern. *)
Fixpoint lit (w : str) : regex :=
  match w with
  | [] => Eps
  | c :: w' => Seq (Chr (CLit c)) (lit w')
  end.

Definition lower_ascii (c : char) : char :=
  if (65 <=? c) && (c <=? 90) then c + 32 else c.

(** Non-ASCII code points that match an ASCII letter when case is
    ignored: dotted capital I and dotless i for [i], long s for [s], the
    Kelvin sign for [k]. *)
Definition ci_extra (l : char) : list char :=
  if l =? 105 then [304; 305]
  else if l =? 115 then [383]
  else if l =? 107 then [8490]
  else [].

(** Does text character [x] match the ASCII pattern character [p] under
    IGNORECASE? *)
Definition ci_eq (p x : char) : bool :=
  let l := lower_ascii p in
  (lower_ascii x =? l) || existsb (N.eqb x) (ci_extra l).

Definition lit_match (fl : flags) (p x : char) : bool :=
  if IGNORECASE fl then ci_eq p x else x =? p.

Definition char_in (fl : flags) (cc : cclass) (x : char) : bool :=
  match cc with
  | CLit c => lit_match fl c x
  | CAny => DOTALL fl || negb (x =? LF)
  | CSpace => is_space x
  | CDigit => is_digit x
  | COneOf cs => existsb (fun c => lit_match fl c x) cs
  end.

(** A position in the subject: the character before it, if any, and the
    text from it on. *)
Definition at_bol (fl : flags) (prev : option char) : bool :=
  match prev with
  | None => true
  | Some c => MULTILINE fl && (c =? LF)
  end.

Definition at_eol (fl : flags) (s : str) : bool :=
  match s with
  | [] => true
  | c :: s' => (c =? LF) && (MULTILINE fl || negb (nonempty s'))
  end.

Section Matcher.
Context {R : Type} (fl : flags).

(** Greedy repetition of a character class, at least [min] times. *)
Fixpoint rep_greedy (p : char -> bool) (min : nat) (prev : option char)
    (s : str) (k : option char -> str -> option R) : option R :=
  let stop := match min with O => k prev s | S _ => None end in
  match s with
  | x :: s' =>
      if p x then
        match rep_greedy p (pred min) (Some x) s' k with
        | Some r => Some r
        | None => stop
        end
      else stop
  | [] => stop
  end.

(** Lazy repetition: stop as soon as the rest of the pattern matches. *)
Fixpoint rep_lazy (p : char -> bool) (min : nat) (prev : option char)
    (s : str) (k : option char -> str -> option R) : option R :=
  let more :=
    match s with
    | x :: s' => if p x then rep_lazy p (pred min) (Some x) s' k else None
    | [] => None
    end in
  match min with
  | O => match k prev s with Some r => Some r | None => more end
  | S _ => more
  end.

(** [rmatch r prev s g k]: match [r] at the position [(prev, s)] with
    group value [g], then continue with [k]. *)
Fixpoint rmatch (r : regex) (prev : option char) (s : str) (g : option str)
    (k : option char -> str -> option str -> option R) : option R :=
  match r with
  | Eps => k prev s g
  | Chr c =>
      match s with
      | x :: s' => if char_in fl c x then k (Some x) s' g else None
      | [] => None
      end
  | Seq r1 r2 =>
      rmatch r1 prev s g (fun prev' s' g' => rmatch r2 prev' s' g' k)
  | Alt r1 r2 =>
      match rmatch r1 prev s g k with
      | Some x => Some x
      | None => rmatch r2 prev s g k
      end
  | Rep c min greedy =>
      (if greedy then rep_greedy else rep_lazy)
        (char_in fl c) min prev s (fun prev' s' => k prev' s' g)
  | Group r1 =>
      rmatch r1 prev s g
        (fun prev' s' _ => k prev' s' (Some (take (length s - length s') s)))
  | Bol => if at_bol fl prev then k prev s g else None
  | Eol => if at_eol fl s then k prev s g else None
  end.
End Matcher.

(** Patterns that cannot match the empty string (a sufficient test). *)
Fixpoint consumes (r : regex) : bool :=
  match r with
  | Eps | Bol | Eol => false
  | Chr _ => true
  | Seq r1 r2 => consumes r1 || consumes r2
  | Alt r1 r2 => consumes r1 && consumes r2
  | Rep _ min _ => match min with O => false | S _ => true end
  | Group r1 => consumes r1
  end.

(** A match object: the text after the match and [group(1)]. *)
Record re_match : Type := { rest : str; group : option str }.

(** The continuation at the end of the pattern: the match is complete. *)
Definition accept (prev : option char) (s : str) (g : option str)
  : option re_match :=
  Some {| rest := s; group := g |}.

Definition match_here (fl : flags) (r : regex) (prev : option char) (s : str)
  : option re_match :=
  rmatch fl r prev s None accept.

(** [re.search]: the match at the leftmost position that has one. *)
Fixpoint search_from (fl : flags) (r : regex) (prev : option char) (s : str)
  : option re_match :=
  match match_here fl r prev s with
  | Some m => Some m
  | None =>
      match s with
      | x :: s' => search_from fl r (Some x) s'
      | [] => None
      end
  end.

Definition search (r : regex) (s : str) (fl : flags) : option re_match :=
  search_from fl r None s.

(** [re.findall] for a pattern with one group: the group of every
    non-overlapping match, left to right.  [skip] counts the positions
    still covered by the previous match.  After an empty match the scan
    moves on by one character; the pattern used with [findall] here
    never matches empty. *)
Fixpoint findall_from (fl : flags) (r : regex) (skip : nat)
    (prev : option char) (s : str) : list str :=
  match skip with
  | S n =>
      match s with
      | x :: s' => findall_from fl r n (Some x) s'
      | [] => []
      end
  | O =>
      match match_here fl r prev s with
      | Some m =>
          default [] (group m) ::
          match s with
          | x :: s' =>
              findall_from fl r (pred (length s - length (rest m))) (Some x) s'
          | [] => []
          end
      | None =>
          match s with
          | x :: s' => findall_from fl r 0 (Some x) s'
          | [] => []
          end
      end
  end.

Definition findall (r : regex) (s : str) (fl : flags) : list str :=
  findall_from fl r 0 None s.

End Re.

(** ** [LlamaSummarizer._parse_llm_output] *)

(** The returned dict [{'summary': ..., 'key_concepts': ...}]. *)
Record SummaryResult : Type :=
  { summary : str; key_concepts : list str }.

Module Parser.
Import Re.

(** The [re] functions the parser calls.  A call may raise; the parser's
    [try] block encloses every one of them. *)
Record re_module : Type :=
  { re_search : regex -> str -> flags -> outcome (option re_match);
    re_findall : regex -> str -> flags -> outcome (list str) }.

(** The interpreter's [re]: on a [str] subject its functions return. *)
Definition python_re : re_module :=
  {| re_search r s fl := Ok (search r s fl);
     re_findall r s fl := Ok (findall r s fl) |}.

Definition FINAL_SUMMARY : str := py "FINAL SUMMARY:".
Definition KEY_CONCEPTS : str := py "KEY CONCEPTS:".

(** The pattern of the first search: FINAL SUMMARY: then a lazy group of
    any characters, then KEY CONCEPTS: *)
Definition summary_re : regex :=
  Seq (lit FINAL_SUMMARY) (Seq (Group (Rep CAny 0 false)) (lit KEY_CONCEPTS)).

(** The pattern of the second search: KEY CONCEPTS: then a greedy group
    of any characters. *)
Definition concepts_re : regex :=
  Seq (lit KEY_CONCEPTS) (Group (Rep CAny 0 true)).

(** The characters [-], [*] and the bullet U+2022. *)
Definition bullet_chars : list char := [45; 42; 8226].

(** The pattern of [findall]: line start, whitespace, a bullet character
    or digits and a dot, whitespace, a lazy group of any characters,
    whitespace, line end.  Its parts, from the right: *)

(** whitespace and the line end; *)
Definition line_end_re : regex := Seq (Rep CSpace 0 true) Eol.

(** whitespace, the group, and the above; *)
Definition concept_re : regex :=
  Seq (Rep CSpace 0 true) (Seq (Group (Rep CAny 0 false)) line_end_re).

(** the marker: a bullet character, or digits and a dot. *)
Definition marker_re : regex :=
  Alt (Chr (COneOf bullet_chars)) (Seq (Rep CDigit 1 true) (Chr (CLit 46))).

Definition bullet_re : regex :=
  Seq Bol (Seq (Rep CSpace 0 true) (Seq marker_re concept_re)).

(** re.IGNORECASE | re.DOTALL, and re.MULTILINE *)
Definition I_S : flags :=
  {| IGNORECASE := true; DOTALL := true; MULTILINE := false |}.
Definition M : flags :=
  {| IGNORECASE := false; DOTALL := false; MULTILINE := true |}.

(** [m.group(1).strip()]; a group that did not take part is [None], and
    the method call on it raises. *)
Definition group_strip (m : re_match) : outcome str :=
  match group m with
  | Some g => Ok (strip g)
  | None => Raise (Exception "AttributeError")
  end.

(** The value the parser falls back to: the raw text and no concepts. *)
Definition fallback (llm_output : str) : SummaryResult :=
  {| summary := llm_output; key_concepts := [] |}.

(** The body of the [try] block, ending in the dict that is returned when
    nothing raises. *)
Definition parse_try (re : re_module) (llm_output : str)
  : outcome SummaryResult :=
  summary_match ← re_search re summary_re llm_output I_S;
  concepts_match ← re_search re concepts_re llm_output I_S;
  match summary_match, concepts_match with
  | Some sm, Some cm =>
      summary ← group_strip sm;
      concepts_text ← group_strip cm;
      raw_concepts ← re_findall re bullet_re concepts_text M;
      mret {| summary := summary;
              key_concepts :=
                strip <$> filter (fun c => nonempty (strip c) = true)
                                 raw_concepts |}
  | _, _ => mret (fallback llm_output)
  end.

Definition _parse_llm_output_with (re : re_module) (llm_output : str)
  : SummaryResult :=
  match parse_try re llm_output with
  | Ok r => r
  | Raise _ => fallback llm_output      (* except Exception *)
  end.

Definition _parse_llm_output : str -> SummaryResult :=
  _parse_llm_output_with python_re.

End Parser.

Import Parser.

(** ** The text splitter *)

Module Chunker.

(** [LlamaSummarizer.__init__] builds its splitter from a class of a
    third-party package, with [chunk_size=4000] and [chunk_overlap=200].
    The class is not part of the sources; what the splitter does is taken
    from the Chunker of section 4.1 of the specification.

    Reading of section 4.1 taken here.  Splitting a span on a separator
    yields the pieces between the occurrences of the separator; an
    occurrence belongs to no piece.  Regrouping concatenates adjacent
    pieces "with the separator": inside a group the separators are back,
    so a group is a contiguous span of the text, and the separator at
    which one group ends and the next begins is in neither of them.  A
    group of one empty piece, which arises next to a separator at the
    edge of a span or between two separators, is not made a chunk:
    section 8 wants no empty chunk.  The rule "empty text -> empty chunk
    sequence" is an edge case and goes before the rule for short texts. *)

(** Modelled from the spec: the Chunk of the data model, with its content,
    the offset of its non-overlapping content in the text and its 0-based
    index. *)
Record Chunk : Type :=
  { content : str; start_offset : nat; sequence_index : nat }.

(** Modelled from the spec: the candidate separators, coarsest first
    (double newline, single newline, sentence-ending punctuation,
    whitespace); the empty string stands for the character level. *)
Definition default_separators : list str :=
  [nl ++ nl; nl; py "."; py " "; []].

(** A piece or a group goes with the offset in the text at which it
    starts. *)
Definition cons_first (start : nat) (c : char) (pieces : list (nat * str))
  : list (nat * str) :=
  match pieces with
  | [] => [(start, [c])]
  | (_, p) :: rest => (start, c :: p) :: rest
  end.

(** Modelled from the spec: splitting a span on a separator.  The pieces
    are what stands before, between and after the occurrences of [sep] in
    [s], occurrences taken left to right without overlap.  [pending]
    counts the characters of the current occurrence that are still to be
    passed over, [start] is the offset of [s] in the text. *)
Fixpoint cut (sep : str) (pending start : nat) (s : str)
  : list (nat * str) :=
  match s with
  | [] => [(start, [])]
  | c :: s' =>
      match pending with
      | S n => cut sep n (S start) s'
      | O =>
          if startswith sep s
          then (start, []) :: cut sep (pred (length sep)) (S start) s'
          else cons_first start c (cut sep 0 (S start) s')
      end
  end.

(** Modelled from the spec: character-level slicing, the characters of a
    span, each with its offset. *)
Fixpoint characters (start : nat) (s : str) : list (nat * str) :=
  match s with
  | [] => []
  | c :: s' => (start, [c]) :: characters (S start) s'
  end.

(** Modelled from the spec: the pieces of a span for one separator; for
    the empty separator, its characters. *)
Definition pieces (sep : str) (start : nat) (s : str) : list (nat * str) :=
  match sep with
  | [] => characters start s
  | _ :: _ => cut sep 0 start s
  end.

(** Modelled from the spec: the group in the making is accepted and
    becomes a chunk, unless it is empty. *)
Definition flush (cur : option (nat * str)) : list (nat * str) :=
  match cur with
  | Some (start, (_ :: _) as g) => [(start, g)]
  | _ => []
  end.

(** Modelled from the spec: greedy regrouping up to [max].  Adjacent
    pieces are concatenated with the separator until adding the next
    piece would exceed the bound; a piece still too large goes to the
    next finer separator, [finer]. *)
Fixpoint regroup (max : nat) (sep : str)
    (finer : nat -> str -> list (nat * str)) (cur : option (nat * str))
    (ps : list (nat * str)) : list (nat * str) :=
  match ps with
  | [] => flush cur
  | (start, p) :: rest =>
      if (max <? length p)%nat then
        flush cur ++ finer start p ++ regroup max sep finer None rest
      else
        match cur with
        | None => regroup max sep finer (Some (start, p)) rest
        | Some (start', g) =>
            if (length g + length sep + length p <=? max)%nat then
              regroup max sep finer (Some (start', g ++ sep ++ p)) rest
            else
              flush cur ++ regroup max sep finer (Some (start, p)) rest
        end
  end.

(** Modelled from the spec: the recursive boundary-preferring split of a
    span larger than [max]: the coarsest remaining separator first, the
    finer ones for the pieces still too large, character-level slicing as
    the base case. *)
Fixpoint split_span (seps : list str) (max start : nat) (text : str)
  : list (nat * str) :=
  match seps with
  | [] =>
      regroup max [] (fun start' p => [(start', p)]) None
        (pieces [] start text)
  | sep :: finer =>
      regroup max sep (split_span finer max) None (pieces sep start text)
  end.

(** Modelled from the spec: the accepted pieces.  The empty text has none;
    a text within the bound is one piece; a longer one is split. *)
Definition groups (seps : list str) (max : nat) (text : str)
  : list (nat * str) :=
  match text with
  | [] => []
  | _ :: _ =>
      if (length text <=? max)%nat then [(0%nat, text)]
      else split_span seps max 0 text
  end.

(** The trailing [n] characters of [s]. *)
Definition trailing (n : nat) (s : str) : str := drop (length s - n) s.

(** Modelled from the spec: applying the overlap.  Every chunk after the
    first is prefixed with the trailing [overlap] characters of the content
    of the chunk before it; the start offset is that of the chunk's own
    text. *)
Fixpoint with_overlap (overlap : nat) (prev : str) (index : nat)
    (gs : list (nat * str)) : list Chunk :=
  match gs with
  | [] => []
  | (offset, g) :: rest =>
      let c := trailing overlap prev ++ g in
      {| content := c; start_offset := offset; sequence_index := index |}
      :: with_overlap overlap c (S index) rest
  end.

(** Modelled from the spec: the contract [split(text, max_chunk_size,
    overlap)] over a list of separators.  Parameters that do not satisfy
    [overlap < max_chunk_size] are a configuration error, which fails
    fast. *)
Definition split_with (seps : list str) (text : str)
    (max_chunk_size overlap : nat) : outcome (list Chunk) :=
  if (max_chunk_size <=? overlap)%nat then
    Raise (Exception "configuration_error")
  else
    Ok (with_overlap overlap [] 0 (groups seps max_chunk_size text)).

(** Modelled from the spec: [split] with the separators above. *)
Definition split : str -> nat -> nat -> outcome (list Chunk) :=
  split_with default_separators.

(** Re-assembly as section 8 words it: the overlap prefix, as long as the
    tail it was copied from, is removed from every chunk but the first,
    and the contents are concatenated. *)
Fixpoint strip_overlaps (overlap : nat) (prev : option str)
    (cs : list Chunk) : list str :=
  match cs with
  | [] => []
  | c :: rest =>
      match prev with
      | None => content c
      | Some p => drop (Nat.min overlap (length p)) (content c)
      end :: strip_overlaps overlap (Some (content c)) rest
  end.

Definition reassemble (overlap : nat) (cs : list Chunk) : str :=
  concat (strip_overlaps overlap None cs).

(** The chunks' own texts, each with its start offset. *)
Definition own_spans (overlap : nat) (cs : list Chunk) : list (nat * str) :=
  zip (start_offset <$> cs) (strip_overlaps overlap None cs).

(** A stretch of text that consists of separators only. *)
Definition separators_only (seps : list str) (gap : str) : Prop :=
  ∃ ss, Forall (fun sep => sep ∈ seps) ss ∧ gap = concat ss.

(** [laid_out seps start text spans]: the text, which stands at offset
    [start], consists of the spans, each at its offset and in this order,
    and of separators only before, between and after them. *)
Inductive laid_out (seps : list str)
  : nat -> str -> list (nat * str) -> Prop :=
| laid_out_end start gap :
    separators_only seps gap -> laid_out seps start gap []
| laid_out_span start gap g rest spans :
    separators_only seps gap ->
    laid_out seps (start + length gap + length g)%nat rest spans ->
    laid_out seps start (gap ++ g ++ rest)
      ((start + length gap, g)%nat :: spans).

(** The text of further pieces, each with the separator before it, and
    the offsets such pieces have behind the offset [pos]. *)
Definition behind (sep : str) (ps : list (nat * str)) : str :=
  concat ((fun p => sep ++ p.2) <$> ps).

Fixpoint chained (sep : str) (pos : nat) (ps : list (nat * str)) : Prop :=
  match ps with
  | [] => True
  | (start, p) :: rest =>
      start = (pos + length sep)%nat ∧ chained sep (start + length p) rest
  end.

End Chunker.

(** ** [LlamaSummarizer] *)

Module Summarizer.

(** Values found in the dicts the summarizer reads: text or [None]. *)
Inductive pyval : Type :=
| PNone
| PStr (s : str).

(** [bool(v)] *)
Definition truthy (v : pyval) : bool :=
  match v with
  | PNone => false
  | PStr s => nonempty s
  end.

(** [d.get(k)] and [d.get(k, dflt)] *)
Definition get (d : gmap string pyval) (k : string) : pyval :=
  default PNone (d !! k).
Definition get_or (d : gmap string pyval) (k : string) (dflt : pyval)
  : pyval :=
  default dflt (d !! k).

(** The text an f-string puts in place of [{v}]. *)
Definition format (v : pyval) : str :=
  match v with
  | PStr s => s
  | PNone => py "None"
  end.

(** [_prepare_input_text]: the list [text_parts] grows by one entry for
    each field that is there and not empty; the entries are joined with
    blank lines. *)
Definition _prepare_input_text (article_data : gmap string pyval) : str :=
  let text_parts := [] in
  let text_parts :=
    if truthy (get article_data "title")
    then text_parts ++ [py "Title: " ++ format (get article_data "title")]
    else text_parts in
  let text_parts :=
    if truthy (get article_data "abstract")
    then text_parts
         ++ [py "Abstract: " ++ format (get article_data "abstract")]
    else text_parts in
  let full_text := get article_data "full_text" in
  let text_parts :=
    if truthy full_text
    then text_parts ++ [py "Full Text:" ++ nl ++ format full_text]
    else text_parts in
  join (nl ++ nl) text_parts.

(** The collaborators held by the object: [self.chain.invoke] on the list
    of document contents, returning the chain's result dict or raising,
    and [self.text_splitter.split_text].  The chain calls the model over
    the network and may raise anything, also what is no [Exception]. *)
Record LlamaSummarizer : Type :=
  { chain_invoke : list str -> outcome_of raised (gmap string pyval);
    split_text : str -> outcome (list str) }.

(** The messages of the four error returns. *)
Definition insufficient_data : str :=
  py "Error: Insufficient article data provided for summarization.".
Definition empty_text : str :=
  py "Error: No text content available for summarization.".
Definition empty_output : str :=
  py "Error: Summarization process failed to produce output.".
Definition internal_error (e : exn) : str :=
  py "Error: Summarization failed due to an internal error ("
  ++ py (type_name e) ++ py ").".

(** The ways a call of [summarize] ends. *)
Inductive ending : Type :=
| Failed (message : str)
    (* return {'summary': message, 'key_concepts': []} *)
| Parsed (llm_output_text : str)
    (* return self._parse_llm_output(llm_output_text) *)
| Escaped (e : raised).
    (* an exception leaves the method *)

Definition error_result (message : str) : SummaryResult :=
  {| summary := message; key_concepts := [] |}.

(** What the caller gets. *)
Definition value_of (e : ending) : outcome_of raised SummaryResult :=
  match e with
  | Failed message => Ok (error_result message)
  | Parsed llm_output_text => Ok (_parse_llm_output llm_output_text)
  | Escaped e => Raise e
  end.

(** A call of [summarize]: how it ends, and the inputs of the chain
    invocations it made, in order. *)
Record run : Type :=
  { ending_of : ending; chain_calls : list (list str) }.

Definition returned (r : run) : outcome_of raised SummaryResult :=
  value_of (ending_of r).

(** The [try] block of [summarize], given the chain's outcome.  The
    handler is [except Exception]: what is no [Exception] passes it. *)
Definition after_chain (invoked : outcome_of raised (gmap string pyval))
  : ending :=
  match invoked with
  | Ok result =>
      let llm_output_text := get_or result "output_text" (PStr []) in
      if negb (truthy llm_output_text) then Failed empty_output
      else Parsed (format llm_output_text)
  | Raise (OfException e) =>
      Failed (internal_error e)              (* except Exception as e *)
  | Raise (OfBaseException name) =>
      Escaped (OfBaseException name)         (* not caught *)
  end.

(** [summarize]; the argument is [None] or a dict. *)
Definition summarize (self : LlamaSummarizer)
    (article_data : option (gmap string pyval)) : run :=
  match article_data with
  | None => {| ending_of := Failed insufficient_data; chain_calls := [] |}
  | Some d =>
      if bool_decide (d = ∅) || negb (truthy (get d "abstract")) then
        {| ending_of := Failed insufficient_data; chain_calls := [] |}
      else
        let input_text := _prepare_input_text d in
        if negb (nonempty (strip input_text)) then
          {| ending_of := Failed empty_text; chain_calls := [] |}
        else
          match split_text self input_text with
          | Raise e => {| ending_of := Escaped e; chain_calls := [] |}
          | Ok texts =>
              let docs := texts in     (* Document(page_content=t) *)
              {| ending_of := after_chain (chain_invoke self docs);
                 chain_calls := [docs] |}
          end
  end.

(** The splitter as [__init__] configures it: the chunker of the
    specification with these two parameters, returning the contents. *)
Definition chunk_size : nat := 4000.
Definition chunk_overlap : nat := 200.

Definition configured_split_text (text : str) : outcome (list str) :=
  fmap (M := list) Chunker.content
  <$> Chunker.split text chunk_size chunk_overlap.

End Summarizer.

(** ** The vocabulary of the specification *)

Module Spec.
Import Re Summarizer.

(** The word [w] stands at the head of [s], case ignored. *)
Fixpoint ci_prefix (w s : str) : bool :=
  match w, s with
  | [], _ => true
  | p :: w', x :: s' => ci_eq p x && ci_prefix w' s'
  | _ :: _, [] => false
  end.

(** The marker [w] occurs somewhere in [s], case ignored. *)
Fixpoint contains_ci (w s : str) : bool :=
  ci_prefix w s
  || match s with
     | [] => false
     | _ :: s' => contains_ci w s'
     end.

(** The text after the first occurrence of the marker. *)
Fixpoint after_ci (w s : str) : option str :=
  if ci_prefix w s then Some (drop (length w) s)
  else match s with
       | [] => None
       | _ :: s' => after_ci w s'
       end.

(** The lines of a text. *)
Fixpoint lines (s : str) : list str :=
  match s with
  | [] => [[]]
  | c :: s' =>
      if c =? LF then [] :: lines s'
      else match lines s' with
           | l :: ls => (c :: l) :: ls
           | [] => [[c]]
           end
  end.

Fixpoint drop_digits (s : str) : str :=
  match s with
  | c :: s' => if is_digit c then drop_digits s' else s
  | [] => []
  end.

(** A line that begins with a bullet marker or a numeric-dot marker: what
    follows the marker. *)
Definition after_marker (line : str) : option str :=
  match line with
  | [] => None
  | c :: r =>
      if existsb (N.eqb c) bullet_chars then Some r
      else if is_digit c then
        match drop_digits r with
        | d :: r' => if d =? 46 then Some r' else None
        | [] => None
        end
      else None
  end.

(** The key concepts as section 4.4 words them: each line after the
    marker that begins with a bullet or numeric-dot marker, marker and
    surrounding whitespace trimmed, empty results discarded. *)
Definition spec_key_concepts (raw : str) : list str :=
  match after_ci KEY_CONCEPTS raw with
  | None => []
  | Some span =>
      filter (fun c => nonempty c = true)
        (omap (fun line => strip <$> after_marker (strip line)) (lines span))
  end.

(** The format the combine prompt asks for: one concept per line behind
    "- ".  A concept as the model is asked to write it: text on one line
    that neither starts nor ends with whitespace. *)
Definition clean (c : str) : Prop :=
  Forall (λ x, x ≠ LF) c
  ∧ (∃ x c', c = x :: c' ∧ is_space x = false)
  ∧ (∃ c' z, c = c' ++ [z] ∧ is_space z = false).

Definition bullet_list (cs : list str) : str :=
  join nl ((λ c, py "- " ++ c) <$> cs).

(** What may follow a line: the end of the text, or a line break and a
    line that starts with a character other than whitespace. *)
Definition line_follows (r : str) : Prop :=
  r = [] ∨ ∃ x r', r = LF :: x :: r' ∧ is_space x = false.

(** The words [w] and [w'] are equal, case ignored. *)
Fixpoint ci_word (w w' : str) : bool :=
  match w, w' with
  | [], [] => true
  | p :: w1, x :: w1' => ci_eq p x && ci_word w1 w1'
  | _, _ => false
  end.

(** The three text fields with the label the code puts before each. *)
Definition fields : list (string * str) :=
  [ ("title"%string, py "Title: ");
    ("abstract"%string, py "Abstract: ");
    ("full_text"%string, py "Full Text:" ++ nl) ].

(** The fields of a document that are there and not empty, in the fixed
    order, each with its label. *)
Definition present_fields (d : gmap string pyval) : list (str * str) :=
  omap (fun f : string * str =>
          match d !! fst f with
          | Some (PStr ((_ :: _) as v)) => Some (snd f, v)
          | _ => None
          end) fields.

(** The prepared text as the data model words it: the present fields
    joined by blank lines, nothing else. *)
Definition spec_prepared_text (d : gmap string pyval) : str :=
  join (nl ++ nl) (snd <$> present_fields d).

(** The same with the labels. *)
Definition labelled_prepared_text (d : gmap string pyval) : str :=
  join (nl ++ nl) ((fun f : str * str => fst f ++ snd f) <$> present_fields d).

(** [abstract] is absent or empty, or there is no input at all. *)
Definition no_abstract (article_data : option (gmap string pyval)) : Prop :=
  match article_data with
  | None => True
  | Some d => d = ∅ ∨ d !! "abstract"%string = None
              ∨ d !! "abstract"%string = Some PNone
              ∨ d !! "abstract"%string = Some (PStr [])
  end.

End Spec.

(** ** Inputs used in the examples *)

Module Examples.
Import Summarizer.

(** The well-formed model output of section 8. *)
Definition well_formed_output : str :=
  py "FINAL SUMMARY:" ++ nl ++ py "Alpha beta." ++ nl
  ++ py "KEY CONCEPTS:" ++ nl ++ py "- one" ++ nl ++ py "- two" ++ nl.

(** A bullet line with nothing after the marker, followed by a second
    bullet line. *)
Definition empty_bullet_output : str :=
  py "FINAL SUMMARY:" ++ nl ++ py "S" ++ nl
  ++ py "KEY CONCEPTS:" ++ nl ++ py "-" ++ nl ++ py "- two".

(** A text without markers. *)
Definition plain_output : str := py "just some text".

(** A regex module whose first call raises. *)
Definition failing_re : re_module :=
  {| re_search _ _ _ := Raise (Exception "RuntimeError");
     re_findall _ _ _ := Raise (Exception "RuntimeError") |}.

(** Documents. *)
Definition title_only : gmap string pyval :=
  {[ "title"%string := PStr (py "T") ]}.
Definition empty_abstract : gmap string pyval :=
  {[ "abstract"%string := PStr [] ]}.
Definition article : gmap string pyval :=
  <[ "title"%string := PStr (py "T") ]>
    {[ "abstract"%string := PStr (py "A") ]}.

(** Summarizers that differ in what the chain does: it raises, it returns
    no output, it answers in the requested format, it is interrupted from
    the keyboard, it returns a text that starts like an error message. *)
Definition raising : LlamaSummarizer :=
  {| chain_invoke _ := Raise (Exception "TimeoutError");
     split_text := configured_split_text |}.
Definition silent : LlamaSummarizer :=
  {| chain_invoke _ := Ok ∅;
     split_text := configured_split_text |}.
Definition answering : LlamaSummarizer :=
  {| chain_invoke _ :=
       Ok {[ "output_text"%string := PStr well_formed_output ]};
     split_text := configured_split_text |}.
Definition interrupted : LlamaSummarizer :=
  {| chain_invoke _ := Raise (OfBaseException "KeyboardInterrupt");
     split_text := configured_split_text |}.
Definition error_like_text : str := py "Error: x".
Definition echoing : LlamaSummarizer :=
  {| chain_invoke _ := Ok {[ "output_text"%string := PStr error_like_text ]};
     split_text := configured_split_text |}.

End Examples.

(** ** The parser described without patterns *)

Module Direct.
Import Re Spec.

(** The first place where the marker [w] stands, case ignored: the text
    before it and the text after it. *)
Fixpoint split_at_ci (w s : str) : option (str * str) :=
  if ci_prefix w s then Some ([], drop (length w) s)
  else match s with
       | [] => None
       | c :: s' =>
           match split_at_ci w s' with
           | Some (u, v) => Some (c :: u, v)
           | None => None
           end
       end.

(** What the parser makes of the text after KEY CONCEPTS: *)
Definition concepts_of (span : str) : list str :=
  strip <$> filter (fun c => nonempty (strip c) = true)
                   (findall bullet_re (strip span) M).

(** The parser's result in terms of the places of the markers: the
    summary lies between the first FINAL SUMMARY: and the first
    KEY CONCEPTS: after it, the concepts after the first KEY CONCEPTS: of
    the whole text. *)
Definition parse_direct (raw : str) : SummaryResult :=
  match after_ci FINAL_SUMMARY raw with
  | Some t =>
      match split_at_ci KEY_CONCEPTS t, after_ci KEY_CONCEPTS raw with
      | Some (v, _), Some span =>
          {| summary := strip v; key_concepts := concepts_of span |}
      | _, _ => fallback raw
      end
  | None => fallback raw
  end.

(** A KEY CONCEPTS: stands behind the first FINAL SUMMARY: *)
Definition markers_in_order (raw : str) : bool :=
  match after_ci FINAL_SUMMARY raw with
  | Some t => contains_ci KEY_CONCEPTS t
  | None => false
  end.

End Direct.

(** ** Article URLs: [app/utils/helper.py], the extractors' reading of a
    URL, and the dispatch of [app/api/routes.py] *)

Module Urls.
Import Re.

(** [w in s] for two strings *)
Fixpoint contains (w s : str) : bool :=
  startswith w s
  || match s with
     | [] => false
     | _ :: s' => contains w s'
     end.

(** No flags. *)
Definition plain : flags :=
  {| IGNORECASE := false; DOTALL := false; MULTILINE := false |}.

(** [re.search] for a matcher given as a function, keeping the text from
    the start of the match on: with it [m.group(0)] can be read off. *)
Fixpoint scan (here : option char -> str -> option re_match)
    (prev : option char) (s : str) : option (str * re_match) :=
  match here prev s with
  | Some m => Some (s, m)
  | None =>
      match s with
      | x :: s' => scan here (Some x) s'
      | [] => None
      end
  end.

(** [m.group(0)]: what the whole pattern matched. *)
Definition group0 (found : str * re_match) : str :=
  take (length (fst found) - length (rest (snd found))) (fst found).

(** The longest run of characters of a class at the head of a text, and
    the text behind it. *)
Fixpoint leading (p : char -> bool) (s : str) : str :=
  match s with
  | c :: s' => if p c then c :: leading p s' else []
  | [] => []
  end.

Fixpoint after_leading (p : char -> bool) (s : str) : str :=
  match s with
  | c :: s' => if p c then after_leading p s' else s
  | [] => []
  end.

(** The exception the code raises for a URL it cannot read. *)
Definition ValueError : exn := Exception "ValueError".

End Urls.

(** [app/utils/helper.py] *)
Module Helper.
Import Re Urls.

Definition detect_source_from_url (url : str) : option str :=
  if contains (py "arxiv.org") url then Some (py "arxiv")
  else if contains (py "hal.archives-ouvertes.fr") url
          || contains (py "hal-") url then Some (py "hal")
  else None.

(** The pattern (\d+\.\d+|[a-z]+\/\d+) *)
Definition a_z : list char := py "abcdefghijklmnopqrstuvwxyz".

Definition arxiv_re : regex :=
  Group (Alt (Seq (Rep CDigit 1 true)
                  (Seq (Chr (CLit 46)) (Rep CDigit 1 true)))
             (Seq (Rep (COneOf a_z) 1 true)
                  (Seq (Chr (CLit 47)) (Rep CDigit 1 true)))).

Definition extract_arxiv_id (url : str) : option str :=
  match scan (match_here plain arxiv_re) None url with
  | Some found => Some (group0 found)
  | None => None
  end.

(** What one alternative of that pattern leaves behind at the head of a
    text: a run of the class [p], the separator, a run of digits. *)
Definition id_at (p : char -> bool) (sep : char) (s : str) : option str :=
  let t := after_leading p s in
  if nonempty (leading p s) && startswith [sep] t
     && nonempty (leading is_digit (drop 1 t))
  then Some (after_leading is_digit (drop 1 t))
  else None.

Definition arxiv_id_rest (s : str) : option str :=
  match id_at is_digit 46 s with
  | Some r => Some r
  | None => id_at (char_in plain (COneOf a_z)) 47 s
  end.

(** The pattern hal-(\d+) *)
Definition hal_re : regex :=
  Seq (lit (py "hal-")) (Group (Rep CDigit 1 true)).

Definition extract_hal_id (url : str) : option str :=
  match scan (match_here plain hal_re) None url with
  | Some found => Some (group0 found)
  | None => None
  end.

End Helper.

(** [app/core/extractors/hal.py]: how [HalExtractor] gets from a URL to
    the query it sends.  [request] stands for the HTTP request with the
    query [q] and the reading of the response. *)
Module HalExtractor.
Import Re Urls.

Definition hal_re : regex :=
  Seq (lit (py "hal-")) (Group (Rep CDigit 1 true)).

(** "hal-" and at least one digit stand at the head of the text. *)
Definition hal_id_here (s : str) : bool :=
  startswith (py "hal-") s && nonempty (leading is_digit (drop 4 s)).

Definition extract_by_id {A : Type} (request : str -> outcome A)
    (doc_id : str) : outcome A :=
  let hal_id :=
    if startswith (py "hal-") doc_id then doc_id
    else py "hal-" ++ doc_id in
  request (py "docid:" ++ hal_id).

Definition extract_from_url {A : Type} (request : str -> outcome A)
    (url : str) : outcome A :=
  match scan (match_here plain hal_re) None url with
  | None => Raise ValueError
  | Some found =>
      let doc_id := group0 found in
      extract_by_id request doc_id
  end.

End HalExtractor.

(** [app/core/extractors/arxiv.py]: how [ArxivExtractor] gets from a URL
    to the id it queries.  [extract_by_id] stands for the method of that
    name, which sends the request. *)
Module ArxivExtractor.
Import Re Urls.

(** The pattern is /(?:abs|pdf)/ followed by a group of one or more
    characters other than [?] and [#]. *)
Definition path_re : regex :=
  Seq (lit (py "/")) (Seq (Alt (lit (py "abs")) (lit (py "pdf")))
                          (lit (py "/"))).

Definition id_char (c : char) : bool := negb ((c =? 63) || (c =? 35)).

Definition id_here (prev : option char) (s : str) : option re_match :=
  rmatch plain path_re prev s None
    (fun prev' s' _ =>
       rep_greedy id_char 1 prev' s'
         (fun prev'' s'' =>
            accept prev'' s'' (Some (take (length s' - length s'') s')))).

(** "/abs/" or "/pdf/" and at least one character other than [?] and [#]
    stand at the head of the text. *)
Definition arxiv_id_here (s : str) : bool :=
  (startswith (py "/abs/") s || startswith (py "/pdf/") s)
  && nonempty (leading id_char (drop 5 s)).

(** [article_id.lower().endswith('.pdf')].  Lowering works character by
    character here: the only characters whose lower case is [p], [d] or
    [f] are these letters and their capitals, and only the full stop
    lowers to a full stop. *)
Definition ends_with_pdf (article_id : str) : bool :=
  match reverse article_id with
  | f :: d :: p :: dot :: _ =>
      (lower_ascii f =? 102) && (lower_ascii d =? 100)
      && (lower_ascii p =? 112) && (dot =? 46)
  | _ => false
  end.

(** The id without a final ".pdf", in any case of the letters. *)
Definition without_pdf (article_id : str) : str :=
  if ends_with_pdf article_id
  then take (length article_id - 4) article_id
  else article_id.

Definition extract_from_url {A : Type} (extract_by_id : str -> outcome A)
    (url : str) : outcome A :=
  match scan id_here None url with
  | None => Raise ValueError
  | Some found =>
      match group (snd found) with
      | None => Raise (Exception "AttributeError")
      | Some article_id =>
          let article_id := without_pdf article_id in
          if negb (nonempty article_id) then Raise ValueError
          else extract_by_id article_id
      end
  end.

End ArxivExtractor.

(** [app/api/routes.py]: [extract_article], over the two extractors. *)
Module Routes.
Import Urls.

Definition extract_article {A : Type}
    (arxiv_extract_from_url hal_extract_from_url : str -> outcome A)
    (url : str) : outcome A :=
  if contains (py "arxiv.org") url then arxiv_extract_from_url url
  else if contains (py "hal.archives-ouvertes.fr") url
          || contains (py "hal-") url then hal_extract_from_url url
  else Raise ValueError.

End Routes.

(** * Theorems *)

Import Re Chunker Summarizer Spec Examples.

(** ** The output parser on concrete texts *)

(** C2: on the well-formed text of section 8 the parser returns the summary
    "Alpha beta." and the key concepts "one", "two". *)
Theorem parse_well_formed :
  _parse_llm_output well_formed_output
  = {| summary := py "Alpha beta."; key_concepts := [py "one"; py "two"] |}.
Proof. vm_compute. reflexivity. Qed.

(** C9: the whitespace run after a marker also runs over the line break, so
    an empty bullet line swallows the line below it: the parser returns the
    next line whole, marker included, where the lines that begin with a
    marker give "two" alone. *)
Theorem parse_empty_bullet_swallows_next_line :
  key_concepts (_parse_llm_output empty_bullet_output) = [py "- two"]
  ∧ spec_key_concepts empty_bullet_output = [py "two"].
Proof. split; vm_compute; reflexivity. Qed.

(** ** Preparing the input text *)

(** C7, the claim as stated fails: for a document with a title only the
    prepared text is the title behind its label, not the bare title. *)
Lemma prepared_text_has_labels :
  _prepare_input_text title_only = py "Title: T"
  ∧ spec_prepared_text title_only = py "T"
  ∧ _prepare_input_text title_only ≠ spec_prepared_text title_only.
Proof. repeat split; vm_compute; congruence. Qed.

(** C7 as amended: the prepared text is the concatenation of the fields
    that are there and not empty, in the order title, abstract, full text,
    each behind its label, separated by blank lines. *)
Theorem prepared_text_labelled (d : gmap string pyval) :
  _prepare_input_text d = labelled_prepared_text d.
Proof.
  unfold _prepare_input_text, labelled_prepared_text, present_fields, fields,
    get.
  cbn [omap list_omap fst snd].
  destruct (d !! "title"%string) as [[|[|c1 v1]]|];
    destruct (d !! "abstract"%string) as [[|[|c2 v2]]|];
    destruct (d !! "full_text"%string) as [[|[|c3 v3]]|];
    reflexivity.
Qed.

(** ** The pipeline *)

(** C3: when the abstract is absent or empty, or there is no article data
    at all, [summarize] returns the insufficient-data error value and the
    chain is never invoked. *)
Theorem summarize_without_abstract (self : LlamaSummarizer)
    (article_data : option (gmap string pyval)) :
  no_abstract article_data →
  returned (summarize self article_data)
  = Ok {| summary := insufficient_data; key_concepts := [] |}
  ∧ chain_calls (summarize self article_data) = [].
Proof.
  destruct article_data as [d|]; simpl; [|done].
  intros H.
  assert (bool_decide (d = ∅) || negb (truthy (get d "abstract")) = true)
    as ->; [|done].
  destruct H as [-> | H]; [done|].
  apply orb_true_iff; right. unfold get.
  destruct H as [-> | [-> | ->]]; reflexivity.
Qed.

Lemma summarize_without_abstract_witness :
  no_abstract (Some empty_abstract)
  ∧ returned (summarize raising (Some empty_abstract))
    = Ok {| summary := insufficient_data; key_concepts := [] |}
  ∧ chain_calls (summarize raising (Some empty_abstract)) = [].
Proof.
  assert (no_abstract (Some empty_abstract)) as H.
  { right; right; right. reflexivity. }
  split; [exact H|].
  exact (summarize_without_abstract raising (Some empty_abstract) H).
Defined.

(** The chain is invoked at most once, and only on what the splitter
    returned for the prepared text. *)
Lemma chain_calls_inv (self : LlamaSummarizer)
    (article_data : option (gmap string pyval)) (docs : list str) :
  chain_calls (summarize self article_data) = [docs] →
  ending_of (summarize self article_data)
  = after_chain (chain_invoke self docs).
Proof.
  destruct article_data as [d|]; simpl; [|done].
  destruct (bool_decide (d = ∅) || negb (truthy (get d "abstract")));
    simpl; [done|].
  destruct (negb (nonempty (strip (_prepare_input_text d)))); simpl; [done|].
  destruct (split_text self (_prepare_input_text d)); simpl; [|done].
  by intros [= ->].
Qed.

(** C8, the claim as stated fails: the handler around the chain is
    [except Exception].  An exception that is no [Exception], here the
    [KeyboardInterrupt] of an interrupt while the chain runs, is not
    caught: it leaves [summarize], and no value is returned. *)
Lemma interrupt_leaves_summarize :
  chain_calls (summarize interrupted (Some article))
  = [[py "Title: T" ++ nl ++ nl ++ py "Abstract: A"]]
  ∧ chain_invoke interrupted [py "Title: T" ++ nl ++ nl ++ py "Abstract: A"]
    = Raise (OfBaseException "KeyboardInterrupt")
  ∧ returned (summarize interrupted (Some article))
    = Raise (OfBaseException "KeyboardInterrupt")
  ∧ ¬ ∃ r : SummaryResult,
        returned (summarize interrupted (Some article)) = Ok r.
Proof.
  split_and!; [vm_compute; reflexivity..|].
  intros [r H]. vm_compute in H. discriminate H.
Qed.

(** C8 as amended: when the chain invoked by [summarize] raises an
    exception of class [Exception], or returns a result without output
    text, [summarize] returns an error value with no key concepts, and
    the exception does not leave [summarize]; an exception that is no
    [Exception] leaves it. *)
Theorem chain_failure_is_returned (self : LlamaSummarizer)
    (article_data : option (gmap string pyval)) (docs : list str) :
  chain_calls (summarize self article_data) = [docs] →
  match chain_invoke self docs with
  | Raise (OfException e) =>
      returned (summarize self article_data)
      = Ok {| summary := internal_error e; key_concepts := [] |}
  | Raise (OfBaseException name) =>
      returned (summarize self article_data)
      = Raise (OfBaseException name)
  | Ok result =>
      result !! "output_text"%string = None
      ∨ result !! "output_text"%string = Some PNone
      ∨ result !! "output_text"%string = Some (PStr []) →
      returned (summarize self article_data)
      = Ok {| summary := empty_output; key_concepts := [] |}
  end.
Proof.
  intros H. unfold returned. rewrite (chain_calls_inv _ _ _ H).
  destruct (chain_invoke self docs) as [result|[e|name]]; simpl; [|done..].
  unfold get_or. by intros [-> | [-> | ->]].
Qed.

Lemma chain_failure_is_returned_witness :
  returned (summarize raising (Some article))
  = Ok {| summary := internal_error (Exception "TimeoutError");
          key_concepts := [] |}
  ∧ returned (summarize silent (Some article))
    = Ok {| summary := empty_output; key_concepts := [] |}.
Proof.
  split.
  - exact (chain_failure_is_returned raising (Some article)
             [py "Title: T" ++ nl ++ nl ++ py "Abstract: A"]
             ltac:(vm_compute; reflexivity)).
  - refine (chain_failure_is_returned silent (Some article)
             [py "Title: T" ++ nl ++ nl ++ py "Abstract: A"]
             ltac:(vm_compute; reflexivity) _).
    left. reflexivity.
Defined.

Lemma internal_error_prefix (e : exn) :
  startswith (py "Error:") (internal_error e) = true.
Proof. reflexivity. Qed.

(** C10, the claim as stated fails: the chain's text goes through the
    parser unchanged, so a call that succeeds may return a summary that
    starts with "Error:" and no key concepts, the very value of a failed
    call with that message. *)
Lemma success_may_look_like_failure :
  ending_of (summarize echoing (Some article)) = Parsed (py "Error: x")
  ∧ returned (summarize echoing (Some article))
    = Ok {| summary := py "Error: x"; key_concepts := [] |}
  ∧ startswith (py "Error:") (py "Error: x") = true
  ∧ returned (summarize echoing (Some article))
    = value_of (Failed (py "Error: x")).
Proof. repeat split; vm_compute; reflexivity. Qed.

(** C10 as amended: every value [summarize] returns has the two fields
    [summary] and [key_concepts]; on each of the error returns the summary
    starts with "Error:" and there are no key concepts; the only other
    return is the parser's result on the chain's non-empty output text.
    Hence a returned summary that does not start with "Error:" comes from
    a call that succeeded. *)
Theorem summarize_value_shape (self : LlamaSummarizer)
    (article_data : option (gmap string pyval)) :
  match ending_of (summarize self article_data) with
  | Failed message =>
      startswith (py "Error:") message = true
      ∧ returned (summarize self article_data)
        = Ok {| summary := message; key_concepts := [] |}
  | Parsed text =>
      text ≠ []
      ∧ returned (summarize self article_data) = Ok (_parse_llm_output text)
  | Escaped e => returned (summarize self article_data) = Raise e
  end
  ∧ ∀ r : SummaryResult,
      returned (summarize self article_data) = Ok r →
      startswith (py "Error:") (summary r) = false →
      ∃ text, ending_of (summarize self article_data) = Parsed text
              ∧ r = _parse_llm_output text.
Proof.
  assert (match ending_of (summarize self article_data) with
          | Failed message => startswith (py "Error:") message = true
          | Parsed text => text ≠ []
          | Escaped _ => True
          end) as Hshape.
  { destruct article_data as [d|]; simpl; [|done].
    destruct (bool_decide (d = ∅) || negb (truthy (get d "abstract")));
      simpl; [done|].
    destruct (negb (nonempty (strip (_prepare_input_text d)))); simpl;
      [done|].
    destruct (split_text self (_prepare_input_text d)) as [docs|e]; simpl;
      [|done].
    destruct (chain_invoke self docs) as [result|[e|name]]; simpl;
      [|exact (internal_error_prefix e)|done].
    destruct (get_or result "output_text" (PStr [])) as [|[|c t]]; simpl;
      done. }
  unfold returned.
  destruct (ending_of (summarize self article_data)) as [m|t|e]; simpl.
  - split; [done|]. intros r Hr Hf.
    assert (r = error_result m) as -> by congruence.
    change (startswith (py "Error:") m = false) in Hf. congruence.
  - split; [done|]. intros r [= <-] _. eauto.
  - split; [done|]. discriminate.
Qed.

Lemma summarize_value_shape_witness :
  ∃ text, ending_of (summarize answering (Some article)) = Parsed text
          ∧ {| summary := py "Alpha beta.";
               key_concepts := [py "one"; py "two"] |}
            = _parse_llm_output text.
Proof.
  apply (proj2 (summarize_value_shape answering (Some article))).
  - vm_compute. reflexivity.
  - vm_compute. reflexivity.
Defined.

(** ** The fallback of the output parser *)

Section MatcherFacts.
Context {R : Type}.
Implicit Types (k : option char → str → option R) (x : R).

(** A run of at least [min] characters hands the continuation a suffix
    of the text that is shorter by [min] or more. *)
Lemma rep_greedy_suffix p min prev s k x :
  rep_greedy p min prev s k = Some x →
  ∃ prev' s', s' `suffix_of` s ∧ (min + length s' ≤ length s)%nat
              ∧ k prev' s' = Some x.
Proof.
  revert min prev. induction s as [|c s IH]; intros min prev; simpl.
  - destruct min; [|done]. intros H. exists prev, []. done.
  - assert (match min with O => k prev (c :: s) | S _ => None end = Some x →
            ∃ prev' s', s' `suffix_of` c :: s
                        ∧ (min + length s' ≤ length (c :: s))%nat
                        ∧ k prev' s' = Some x) as Hstop.
    { destruct min; [|done]. intros H. exists prev, (c :: s). done. }
    destruct (p c); [|done].
    destruct (rep_greedy p (pred min) (Some c) s k) eqn:E; [|done].
    intros [= ->]. destruct (IH _ _ E) as (prev' & s' & Hs & Hl & Hk).
    exists prev', s'. split; [by apply suffix_cons_r|].
    split; [simpl; lia|done].
Qed.

Lemma rep_lazy_suffix p min prev s k x :
  rep_lazy p min prev s k = Some x →
  ∃ prev' s', s' `suffix_of` s ∧ (min + length s' ≤ length s)%nat
              ∧ k prev' s' = Some x.
Proof.
  revert min prev. induction s as [|c s IH]; intros min prev; simpl.
  - destruct min; [|done].
    destruct (k prev []) eqn:E; [|done]. intros [= <-]. exists prev, []. done.
  - assert ((if p c then rep_lazy p (pred min) (Some c) s k else None)
            = Some x →
            ∃ prev' s', s' `suffix_of` c :: s
                        ∧ (min + length s' ≤ length (c :: s))%nat
                        ∧ k prev' s' = Some x) as Hm.
    { destruct (p c); [|done]. intros H.
      destruct (IH _ _ H) as (prev' & s' & Hs & Hl & Hk).
      exists prev', s'. split; [by apply suffix_cons_r|].
      split; [simpl; lia|done]. }
    destruct min; [|done].
    destruct (k prev (c :: s)) eqn:E; [|done]. intros [= <-].
    exists prev, (c :: s). done.
Qed.

(** Whatever the pattern, the continuation is entered at a suffix of the
    text, a proper one if the pattern cannot match empty. *)
Lemma rmatch_suffix fl r prev s g
    (k : option char → str → option str → option R) x :
  rmatch fl r prev s g k = Some x →
  ∃ prev' s' g',
    s' `suffix_of` s
    ∧ (consumes r = true → (length s' < length s)%nat)
    ∧ k prev' s' g' = Some x.
Proof.
  revert prev s g k.
  induction r as [|c|r1 IH1 r2 IH2|r1 IH1 r2 IH2|c min greedy|r IH| |];
    intros prev s g k; cbn [rmatch consumes].
  - intros H. exists prev, s, g. done.
  - destruct s as [|a s]; [done|]. destruct (char_in fl c a); [|done].
    intros H. exists (Some a), s, g.
    split; [by apply suffix_cons_r|]. split; [simpl; lia|done].
  - intros H. apply IH1 in H as (p1 & s1 & g1 & Hs1 & Hc1 & H).
    apply IH2 in H as (p2 & s2 & g2 & Hs2 & Hc2 & H).
    exists p2, s2, g2. split; [by etrans|]. split; [|done].
    apply suffix_length in Hs1, Hs2.
    intros [E|E]%orb_true_iff; [apply Hc1 in E|apply Hc2 in E]; lia.
  - destruct (rmatch fl r1 prev s g k) eqn:E.
    + intros [= ->]. apply IH1 in E as (p1 & s1 & g1 & Hs & Hc & H).
      exists p1, s1, g1. split; [done|]. split; [|done].
      intros [E1 _]%andb_true_iff. auto.
    + intros H. apply IH2 in H as (p1 & s1 & g1 & Hs & Hc & H).
      exists p1, s1, g1. split; [done|]. split; [|done].
      intros [_ E2]%andb_true_iff. auto.
  - intros H.
    assert (∃ prev' s', s' `suffix_of` s
                        ∧ (min + length s' ≤ length s)%nat
                        ∧ k prev' s' g = Some x)
      as (p1 & s1 & Hs & Hl & Hk).
    { destruct greedy;
        [by eapply rep_greedy_suffix|by eapply rep_lazy_suffix]. }
    exists p1, s1, g. split; [done|]. split; [|done].
    destruct min; [done|]. lia.
  - intros H. apply IH in H as (p1 & s1 & g1 & Hs & Hc & H).
    exists p1, s1, (Some (take (length s - length s1) s)). done.
  - destruct (at_bol fl prev); [|done]. intros H. exists prev, s, g. done.
  - destruct (at_eol fl s); [|done]. intros H. exists prev, s, g. done.
Qed.

(** A literal word matches only where it stands, case ignored, and goes
    on right after it. *)
Lemma rmatch_lit w prev s g
    (k : option char → str → option str → option R) x :
  rmatch I_S (lit w) prev s g k = Some x →
  ci_prefix w s = true ∧ ∃ prev', k prev' (drop (length w) s) g = Some x.
Proof.
  revert prev s. induction w as [|c w IH]; intros prev s; simpl.
  - intros H. split; [done|]. rewrite drop_0. eauto.
  - destruct s as [|a s]; [done|].
    unfold lit_match; simpl. destruct (ci_eq c a); [|done].
    intros H. destruct (IH _ _ H) as [-> Hk]. done.
Qed.
(** Inside a line, before a character that is not whitespace, whitespace
    cannot lead to a line end. *)
Lemma eol_fails_inside_line (w : str) (x : char) (s : str) (prev : option char)
    (f : str → R) :
  Forall (λ a, a ≠ LF) w → is_space x = false →
  rep_greedy is_space 0 prev (w ++ x :: s)
    (λ _ s', if at_eol M s' then Some (f s') else None) = None.
Proof.
  intros Hw Hx. revert prev.
  assert (x ≠ LF) as HxLF by (intros ->; discriminate Hx).
  induction Hw as [|a w Ha Hw IH]; intros prev; simpl.
  - rewrite Hx. destruct (N.eqb_spec x LF); done.
  - rewrite IH. destruct (N.eqb_spec a LF); [done|]. simpl.
    by destruct (is_space a).
Qed.

(** A lazy run stops at the first point where the rest of the pattern
    matches. *)
Lemma rep_lazy_line (p : char → bool) (u v : str) (prev : option char)
    (k : option char → str → option R) (x : R) :
  Forall (λ a, p a = true) u →
  (∀ u1 u2 prev', u = u1 ++ u2 → u2 ≠ [] → k prev' (u2 ++ v) = None) →
  k (from_option Some prev (last u)) v = Some x →
  rep_lazy p 0 prev (u ++ v) k = Some x.
Proof.
  intros Hu. revert prev. induction Hu as [|a u Ha Hu IH]; intros prev Hk Hx.
  - simpl in *. destruct v; simpl; rewrite Hx; done.
  - pose proof (Hk [] (a :: u) prev eq_refl ltac:(done)) as H0.
    cbn [app] in *. cbn [rep_lazy]. rewrite H0, Ha. cbn [pred]. apply IH.
    + intros u1 u2 prev' -> Hne. by apply (Hk (a :: u1) u2 prev').
    + rewrite <- Hx. f_equal. destruct u as [|b u]; [reflexivity|].
      rewrite last_cons_cons.
      assert (∃ y, last (b :: u) = Some y) as [y E].
      { destruct (last (b :: u)) eqn:E; [eauto|]. by apply last_None in E. }
      rewrite E. reflexivity.
Qed.
(** A literal word matches a word equal to it, case ignored. *)
Lemma rmatch_lit_here (w w' v : str) (prev : option char) (g : option str)
    (k : option char → str → option str → option R) :
  ci_word w w' = true →
  rmatch I_S (lit w) prev (w' ++ v) g k
  = k (from_option Some prev (last w')) v g.
Proof.
  revert w' prev. induction w as [|p w IH]; intros [|x w'] prev; try done.
  cbn [ci_word lit rmatch app char_in lit_match IGNORECASE I_S].
  intros [-> Hw]%andb_true_iff. rewrite IH by done. f_equal.
  destruct w' as [|b u]; [reflexivity|]. rewrite last_cons_cons.
  assert (∃ y, last (b :: u) = Some y) as [y E].
  { destruct (last (b :: u)) eqn:E; [eauto|]. by apply last_None in E. }
  rewrite E. reflexivity.
Qed.

Lemma rmatch_lit_fails (w s : str) (prev : option char) (g : option str)
    (k : option char → str → option str → option R) :
  ci_prefix w s = false → rmatch I_S (lit w) prev s g k = None.
Proof.
  intros H. destruct (rmatch I_S (lit w) prev s g k) eqn:E; [|done].
  apply rmatch_lit in E as [E _]. congruence.
Qed.

(** A greedy run goes to the end when every character is in the class
    and the rest of the pattern accepts there. *)
Lemma rep_greedy_all (p : char → bool) (t : str) (prev : option char)
    (f : str → R) :
  Forall (λ a, p a = true) t →
  rep_greedy p 0 prev t (λ _ s', Some (f s')) = Some (f []).
Proof.
  intros Ht. revert prev. induction Ht as [|a t Ha Ht IH]; intros prev; [done|].
  cbn [rep_greedy]. rewrite Ha. cbn [pred]. by rewrite IH.
Qed.

End MatcherFacts.

Lemma contains_ci_suffix (w s' s : str) :
  s' `suffix_of` s → ci_prefix w s' = true → contains_ci w s = true.
Proof.
  intros [t ->] H. induction t as [|c t IH]; simpl.
  - destruct s'; simpl; rewrite H; done.
  - rewrite IH. apply orb_true_r.
Qed.

(** Where the first pattern matches, both markers stand in the text. *)
Lemma summary_re_match_here (prev : option char) (s : str) (m : re_match) :
  match_here I_S summary_re prev s = Some m →
  ci_prefix FINAL_SUMMARY s = true ∧ contains_ci KEY_CONCEPTS s = true.
Proof.
  unfold match_here, summary_re. cbn [rmatch]. intros H.
  apply rmatch_lit in H as [Hf [prev1 H]]. split; [done|].
  apply rep_lazy_suffix in H as (prev2 & s2 & Hs & _ & H).
  apply rmatch_lit in H as [Hk _].
  eapply contains_ci_suffix; [|exact Hk].
  etrans; [exact Hs|]. apply suffix_drop.
Qed.

Lemma contains_ci_cons (w : str) (c : char) (s : str) :
  contains_ci w s = true → contains_ci w (c :: s) = true.
Proof.
  intros H.
  change (ci_prefix w (c :: s) || contains_ci w s = true).
  rewrite H. apply orb_true_r.
Qed.

Lemma summary_re_search_from (prev : option char) (s : str) (m : re_match) :
  search_from I_S summary_re prev s = Some m →
  contains_ci FINAL_SUMMARY s = true ∧ contains_ci KEY_CONCEPTS s = true.
Proof.
  revert prev. induction s as [|c s IH]; intros prev;
    cbn [search_from];
    destruct (match_here I_S summary_re prev _) eqn:E; try done.
  - intros _. apply summary_re_match_here in E as [E1 E2].
    split; [|done]. by eapply contains_ci_suffix.
  - intros H. apply IH in H as [H1 H2].
    split; by apply contains_ci_cons.
Qed.

(** The pattern of [findall] takes at least the marker: a match is never
    empty. *)
Lemma bullet_re_consumes (prev : option char) (s : str) (m : re_match) :
  match_here M bullet_re prev s = Some m →
  (length (rest m) < length s)%nat.
Proof.
  unfold match_here. intros H.
  apply rmatch_suffix in H as (p1 & s1 & g1 & _ & Hc & [= <-]).
  simpl. by apply Hc.
Qed.

(** Without one of the markers the first search finds nothing. *)
Lemma summary_re_needs_markers (s : str) :
  contains_ci FINAL_SUMMARY s = false ∨ contains_ci KEY_CONCEPTS s = false →
  search summary_re s I_S = None.
Proof.
  intros H. destruct (search summary_re s I_S) as [m|] eqn:E; [|done].
  apply summary_re_search_from in E as [E1 E2].
  destruct H; congruence.
Qed.

(** C1: when one of the markers FINAL SUMMARY: and KEY CONCEPTS: (case
    ignored) is missing from the raw text, the parser returns the raw text
    itself as summary and no key concepts; and whatever raises inside the
    parser's [try] block, the parser still returns, and returns that same
    fallback value. *)
Theorem parse_fallback :
  (∀ raw : str,
     contains_ci FINAL_SUMMARY raw = false
     ∨ contains_ci KEY_CONCEPTS raw = false →
     _parse_llm_output raw = {| summary := raw; key_concepts := [] |})
  ∧ (∀ (re : re_module) (raw : str) (e : exn),
       parse_try re raw = Raise e →
       _parse_llm_output_with re raw
       = {| summary := raw; key_concepts := [] |}).
Proof.
  split.
  - intros raw H. apply summary_re_needs_markers in H.
    unfold _parse_llm_output, _parse_llm_output_with, parse_try, python_re.
    cbn [re_search mbind outcome_bind]. rewrite H.
    destruct (search concepts_re raw I_S); reflexivity.
  - intros re raw e H. unfold _parse_llm_output_with. rewrite H. reflexivity.
Qed.

Lemma parse_fallback_witness :
  _parse_llm_output plain_output
  = {| summary := plain_output; key_concepts := [] |}
  ∧ _parse_llm_output_with failing_re well_formed_output
    = {| summary := well_formed_output; key_concepts := [] |}.
Proof.
  split.
  - apply (proj1 parse_fallback). left. vm_compute. reflexivity.
  - apply (proj2 parse_fallback failing_re well_formed_output
             (Exception "RuntimeError")).
    reflexivity.
Defined.

(** ** The output parser on the format the prompt asks for *)

Local Arguments is_space : simpl never.
Local Arguments is_digit : simpl never.

(** At the end of a line the pattern's tail matches, and stops there. *)
Lemma line_end_after_line (prev : option char) (r : str) (g : option str) :
  line_follows r →
  rmatch M line_end_re prev r g accept = Some {| rest := r; group := g |}.
Proof.
  unfold line_end_re. cbn [rmatch]. change (char_in M CSpace) with is_space.
  intros [-> | (x & r' & -> & Hx)]; [done|].
  cbn [rep_greedy]. change (is_space LF) with true. cbn [pred].
  cbn [rep_greedy]. rewrite Hx.
  assert (x ≠ LF) as HxLF by (intros ->; discriminate Hx).
  cbn [at_eol]. destruct (N.eqb_spec x LF); [done|]. simpl. done.
Qed.

Lemma line_end_inside_line (prev : option char) (w : str) (x : char) (s : str)
    (g : option str) :
  Forall (λ a, a ≠ LF) w → is_space x = false →
  rmatch M line_end_re prev (w ++ x :: s) g accept = None.
Proof.
  intros Hw Hx. unfold line_end_re. cbn [rmatch].
  change (char_in M CSpace) with is_space.
  by apply (eol_fails_inside_line w x s prev
              (λ s', {| rest := s'; group := g |})).
Qed.

(** After the marker: the whitespace is skipped and the group takes the
    concept, no more and no less. *)
Lemma concept_on_line (prev : option char) (ws c r : str) (g : option str) :
  Forall (λ a, is_space a = true) ws →
  clean c → line_follows r →
  rmatch M concept_re prev (ws ++ c ++ r) g accept
  = Some {| rest := r; group := Some c |}.
Proof.
  intros Hws (Hlf & (x & c' & Hc1 & Hx) & (c0 & z & Hc & Hz)) Hr.
  unfold concept_re. cbn [rmatch]. change (char_in M CSpace) with is_space.
  assert (∀ prev',
    rep_lazy (char_in M CAny) 0 prev' (c ++ r)
      (λ prev'0 s', rmatch M line_end_re prev'0 s'
                      (Some (take (length (c ++ r) - length s') (c ++ r)))
                      accept)
    = Some {| rest := r; group := Some c |}) as Hbody.
  { intros prev'. apply rep_lazy_line.
    - eapply Forall_impl; [exact Hlf|]. intros a Ha. cbn.
      by destruct (N.eqb_spec a LF).
    - intros u1 u2 p' Hu Hne.
      destruct (exists_last Hne) as (w & y & ->).
      rewrite <- app_assoc. cbn [app].
      assert (y = z ∧ u1 ++ w = c0) as [-> _].
      { rewrite Hu, app_assoc in Hc. apply app_inj_tail in Hc as [? ?]. done. }
      apply line_end_inside_line; [|done].
      rewrite Hu in Hlf. apply Forall_app in Hlf as [_ Hlf].
      by apply Forall_app in Hlf as [Hlf _].
    - rewrite line_end_after_line by done. do 2 f_equal.
      rewrite length_app. replace (length c + length r - length r)%nat
        with (length c) by lia. by rewrite take_app_length. }
  subst c. clear Hc.
  revert prev. induction Hws as [|a ws Ha Hws IH]; intros prev.
  - cbn [app rep_greedy]. rewrite Hx. apply Hbody.
  - cbn [app rep_greedy]. rewrite Ha. cbn [pred]. rewrite IH. done.
Qed.

(** A line of the list matches as a whole at its start. *)
Lemma bullet_line (prev : option char) (c r : str) :
  at_bol M prev = true →
  clean c → line_follows r →
  match_here M bullet_re prev (py "- " ++ c ++ r)
  = Some {| rest := r; group := Some c |}.
Proof.
  intros Hbol Hc Hr.
  unfold match_here, bullet_re. cbn [rmatch]. rewrite Hbol.
  change (py "- " ++ c ++ r) with (45 :: [32] ++ c ++ r).
  change (char_in M CSpace) with is_space.
  cbn [rep_greedy]. change (is_space 45) with false. cbn iota.
  unfold marker_re. cbn [rmatch char_in].
  change (existsb (λ c, lit_match M c 45) bullet_chars) with true. cbn iota.
  rewrite (concept_on_line (Some 45) [32] c r None); [done| |done..].
  by repeat constructor.
Qed.

(** The scan passes over the characters of the match it has just
    found. *)
Lemma findall_from_skip (r : regex) (u v : str) (prev : option char) :
  findall_from M r (length u) prev (u ++ v)
  = findall_from M r 0 (from_option Some prev (last u)) v.
Proof.
  revert prev. induction u as [|a u IH]; intros prev; [done|].
  cbn [length app findall_from]. rewrite IH. f_equal.
  destruct u as [|b u]; [reflexivity|]. rewrite last_cons_cons.
  assert (∃ y, last (b :: u) = Some y) as [y E].
  { destruct (last (b :: u)) eqn:E; [eauto|]. by apply last_None in E. }
  rewrite E. reflexivity.
Qed.

Lemma bullet_re_needs_bol (prev : option char) (s : str) :
  at_bol M prev = false → match_here M bullet_re prev s = None.
Proof. intros H. unfold match_here, bullet_re. cbn [rmatch]. by rewrite H. Qed.

Lemma bullet_list_cons (c : str) (cs : list str) :
  bullet_list (c :: cs)
  = py "- " ++ c ++ match cs with [] => [] | _ :: _ => LF :: bullet_list cs end.
Proof.
  unfold bullet_list. destruct cs as [|c2 cs]; cbn [fmap list_fmap join].
  - by rewrite app_nil_r.
  - by rewrite <- app_assoc.
Qed.

Lemma bullet_list_follows (cs : list str) :
  line_follows match cs with [] => [] | _ :: _ => LF :: bullet_list cs end.
Proof.
  destruct cs as [|c cs]; [by left|]. right.
  rewrite bullet_list_cons.
  exists 45, ([32] ++ c ++ match cs with
                           | [] => []
                           | _ :: _ => LF :: bullet_list cs
                           end).
  done.
Qed.

Lemma clean_last_not_LF (c : str) :
  clean c → ∃ z, last c = Some z ∧ at_bol M (Some z) = false.
Proof.
  intros (_ & _ & (c0 & z & -> & Hz)). exists z. rewrite last_snoc.
  split; [done|]. simpl. destruct (N.eqb_spec z LF) as [->|]; done.
Qed.

(** On a list in the requested format [findall] returns the concepts, in
    their order, repeated ones included. *)
Lemma findall_bullet_list (cs : list str) :
  Forall clean cs → findall bullet_re (bullet_list cs) M = cs.
Proof.
  unfold findall. intros Hcs.
  assert (∀ prev, at_bol M prev = true →
            findall_from M bullet_re 0 prev (bullet_list cs) = cs) as H;
    [|by apply H].
  induction Hcs as [|c cs Hc Hcs IH]; intros prev Hbol.
  - cbn [bullet_list join fmap list_fmap findall_from].
    assert (match_here M bullet_re prev [] = None) as ->; [|done].
    unfold match_here, bullet_re, marker_re. cbn. by rewrite Hbol.
  - rewrite bullet_list_cons.
    pose proof (bullet_line prev c _ Hbol Hc (bullet_list_follows cs)) as Hm.
    set (r := match cs with [] => [] | _ :: _ => LF :: bullet_list cs end) in *.
    change (py "- " ++ c ++ r) with (45 :: (32 :: c) ++ r) in *.
    cbn [findall_from]. rewrite Hm. cbn [group rest default]. f_equal.
    replace (pred (length (45 :: (32 :: c) ++ r) - length r))
      with (length (32 :: c)) by (cbn [length]; rewrite length_app; simpl; lia).
    rewrite findall_from_skip.
    destruct (clean_last_not_LF c Hc) as (z & Hz & Hnb).
    assert (last (32 :: c) = Some z) as ->.
    { destruct c; [done|]. by rewrite last_cons_cons. }
    cbn [from_option]. subst r. destruct cs as [|c2 cs].
    + cbn [findall_from]. by rewrite bullet_re_needs_bol.
    + cbn [findall_from]. rewrite bullet_re_needs_bol by done.
      apply IH. reflexivity.
Qed.

(** Trimming changes nothing in a clean concept, and removes the
    whitespace around the list. *)
Lemma strip_clean (c : str) : clean c → strip c = c.
Proof.
  intros (_ & (x & c' & -> & Hx) & (c0 & z & Hc & Hz)).
  unfold strip, rstrip. cbn [lstrip]. rewrite Hx, Hc, reverse_snoc.
  cbn [lstrip]. rewrite Hz. by rewrite <- reverse_snoc, reverse_involutive.
Qed.

(** The colon ends the marker and stands nowhere else in it: an
    occurrence of the marker cannot begin in the text before the marker
    and reach into it. *)
Lemma ci_prefix_app_long (w u v : str) :
  (length w ≤ length u)%nat → ci_prefix w (u ++ v) = ci_prefix w u.
Proof.
  revert u. induction w as [|p w IH]; intros [|x u] Hlen; simpl in *;
    try done; try lia.
  rewrite IH by lia. done.
Qed.

Lemma key_marker_no_straddle (u t : str) :
  u ≠ [] → (length u < length KEY_CONCEPTS)%nat →
  ci_prefix KEY_CONCEPTS (u ++ KEY_CONCEPTS ++ t) = false.
Proof.
  intros Hne Hlen.
  do 13 (destruct u as [|? u]; [try done; cbn; rewrite ?andb_false_r; done|]).
  simpl in Hlen. lia.
Qed.

Lemma contains_ci_false_cons (w : str) (a : char) (u : str) :
  contains_ci w (a :: u) = false →
  ci_prefix w (a :: u) = false ∧ contains_ci w u = false.
Proof.
  change (contains_ci w (a :: u))
    with (ci_prefix w (a :: u) || contains_ci w u).
  by intros [? ?]%orb_false_iff.
Qed.

Lemma contains_ci_false_app (w u1 u2 : str) :
  contains_ci w (u1 ++ u2) = false → contains_ci w u2 = false.
Proof.
  induction u1 as [|a u1 IH]; [done|]. cbn [app].
  intros [_ H]%contains_ci_false_cons. auto.
Qed.

Lemma key_absent_before_marker (u t : str) :
  contains_ci KEY_CONCEPTS u = false → u ≠ [] →
  ci_prefix KEY_CONCEPTS (u ++ KEY_CONCEPTS ++ t) = false.
Proof.
  intros H Hne.
  destruct (Nat.le_gt_cases (length KEY_CONCEPTS) (length u)) as [Hl|Hl].
  - rewrite ci_prefix_app_long by done.
    destruct u as [|a u]; [done|].
    by apply contains_ci_false_cons in H as [? _].
  - by apply key_marker_no_straddle.
Qed.

(** The two searches on a text with both markers. *)
Lemma search_from_eq (fl : flags) (r : regex) (prev : option char) (s : str) :
  search_from fl r prev s
  = match match_here fl r prev s with
    | Some m => Some m
    | None => match s with
              | x :: s' => search_from fl r (Some x) s'
              | [] => None
              end
    end.
Proof. by destruct s. Qed.

Lemma concepts_search (x t : str) (prev : option char) :
  contains_ci KEY_CONCEPTS x = false →
  search_from I_S concepts_re prev (x ++ KEY_CONCEPTS ++ t)
  = Some {| rest := []; group := Some t |}.
Proof.
  revert prev. induction x as [|a x IH]; intros prev H;
    rewrite search_from_eq.
  - cbn [app].
    assert (match_here I_S concepts_re prev (KEY_CONCEPTS ++ t)
            = Some {| rest := []; group := Some t |}) as ->; [|done].
    unfold match_here, concepts_re. cbn [rmatch].
    rewrite rmatch_lit_here by reflexivity. cbn [rmatch].
    rewrite (rep_greedy_all _ t _
               (λ s', {| rest := s';
                         group := Some (take (length t - length s') t) |})).
    + cbn [length]. by rewrite Nat.sub_0_r, firstn_all.
    + apply Forall_forall. done.
  - assert (match_here I_S concepts_re prev ((a :: x) ++ KEY_CONCEPTS ++ t)
            = None) as ->.
    { unfold match_here, concepts_re. cbn [rmatch].
      apply rmatch_lit_fails. by apply key_absent_before_marker. }
    cbn [app]. apply IH. by apply contains_ci_false_cons in H as [_ ?].
Qed.

Lemma summary_match (s t : str) (prev : option char) :
  contains_ci KEY_CONCEPTS s = false →
  match_here I_S summary_re prev (FINAL_SUMMARY ++ s ++ KEY_CONCEPTS ++ t)
  = Some {| rest := t; group := Some s |}.
Proof.
  intros H. unfold match_here, summary_re. cbn [rmatch].
  rewrite rmatch_lit_here by reflexivity.
  apply rep_lazy_line.
  - apply Forall_forall. done.
  - intros u1 u2 prev' -> Hne. apply rmatch_lit_fails.
    apply key_absent_before_marker; [|done].
    by apply contains_ci_false_app in H.
  - rewrite rmatch_lit_here by reflexivity. do 2 f_equal.
    rewrite length_app.
    replace (length s + length (KEY_CONCEPTS ++ t)
             - length (KEY_CONCEPTS ++ t))%nat
      with (length s) by lia.
    by rewrite take_app_length.
Qed.

Lemma lstrip_spaces (ws m : str) :
  Forall (λ a, is_space a = true) ws → lstrip (ws ++ m) = lstrip m.
Proof.
  induction 1 as [|a ws Ha _ IH]; [done|]. cbn [app lstrip]. by rewrite Ha.
Qed.

Lemma rstrip_spaces (m ws : str) :
  Forall (λ a, is_space a = true) ws → rstrip (m ++ ws) = rstrip m.
Proof.
  intros H. unfold rstrip. rewrite reverse_app, lstrip_spaces; [done|].
  by apply Forall_reverse.
Qed.

Lemma rstrip_ends_nonspace (m : str) (z : char) :
  is_space z = false → rstrip (m ++ [z]) = m ++ [z].
Proof.
  intros Hz. unfold rstrip. rewrite reverse_snoc. cbn [lstrip]. rewrite Hz.
  by rewrite <- reverse_snoc, reverse_involutive.
Qed.

Lemma bullet_list_ends (cs : list str) :
  Forall clean cs → cs ≠ [] →
  ∃ m z, bullet_list cs = m ++ [z] ∧ is_space z = false.
Proof.
  induction 1 as [|c cs Hc Hcs IH]; [done|]. intros _.
  rewrite bullet_list_cons. destruct cs as [|c2 cs].
  - destruct Hc as (_ & _ & (c0 & z & -> & Hz)).
    exists (py "- " ++ c0), z. by rewrite app_nil_r, <- app_assoc.
  - destruct IH as (m & z & -> & Hz); [done|].
    exists (py "- " ++ c ++ LF :: m), z. split; [|done].
    by rewrite <- !app_assoc.
Qed.

Lemma strip_bullet_list (ws1 ws2 : str) (cs : list str) :
  Forall (λ a, is_space a = true) ws1 →
  Forall (λ a, is_space a = true) ws2 →
  Forall clean cs →
  strip (ws1 ++ bullet_list cs ++ ws2) = bullet_list cs.
Proof.
  intros H1 H2 Hcs. unfold strip. rewrite lstrip_spaces by done.
  destruct cs as [|c cs].
  - cbn [bullet_list fmap list_fmap join app].
    rewrite <- (app_nil_r ws2), lstrip_spaces by done. done.
  - destruct (bullet_list_ends (c :: cs)) as (m & z & E & Hz); [done..|].
    assert (lstrip (bullet_list (c :: cs) ++ ws2)
            = bullet_list (c :: cs) ++ ws2) as ->.
    { rewrite bullet_list_cons. reflexivity. }
    rewrite rstrip_spaces by done. rewrite E. by apply rstrip_ends_nonspace.
Qed.

Lemma strip_filter_clean (cs : list str) :
  Forall clean cs →
  strip <$> filter (λ c, nonempty (strip c) = true) cs = cs.
Proof.
  induction 1 as [|c cs Hc _ IH]; [done|].
  pose proof (strip_clean c Hc) as Hs.
  rewrite filter_cons_True.
  - csimpl. by rewrite Hs, IH.
  - rewrite Hs. by destruct Hc as (_ & (x & c' & -> & _) & _).
Qed.

(** On an output in the requested format, the marker KEY CONCEPTS: not
    occurring in the summary part, the parser returns the trimmed summary
    and the concepts in their order, repeated ones included. *)
Lemma parse_requested_format (s ws1 ws2 : str) (cs : list str) :
  contains_ci KEY_CONCEPTS s = false →
  Forall (λ a, is_space a = true) ws1 →
  Forall (λ a, is_space a = true) ws2 →
  Forall clean cs →
  _parse_llm_output
    (FINAL_SUMMARY ++ s ++ KEY_CONCEPTS ++ ws1 ++ bullet_list cs ++ ws2)
  = {| summary := strip s; key_concepts := cs |}.
Proof.
  intros Hs H1 H2 Hcs.
  unfold _parse_llm_output, _parse_llm_output_with, parse_try, python_re.
  cbn [re_search re_findall mbind outcome_bind]. unfold search.
  rewrite search_from_eq, summary_match by done.
  rewrite (app_assoc FINAL_SUMMARY s), concepts_search by done.
  unfold group_strip. cbn [group mbind outcome_bind mret outcome_ret].
  rewrite strip_bullet_list, findall_bullet_list, strip_filter_clean by done.
  reflexivity.
Qed.

Lemma parse_requested_format_example :
  _parse_llm_output well_formed_output
  = {| summary := py "Alpha beta."; key_concepts := [py "one"; py "two"] |}.
Proof.
  apply (parse_requested_format (nl ++ py "Alpha beta." ++ nl) nl nl
           [py "one"; py "two"]).
  - vm_compute. reflexivity.
  - by repeat constructor.
  - by repeat constructor.
  - repeat constructor; try discriminate.
    + by exists 111, (py "ne").
    + by exists (py "on"), 101.
    + by exists 116, (py "wo").
    + by exists (py "tw"), 111.
Defined.

(** ** The chunker *)

Lemma startswith_split (w s : str) :
  startswith w s = true → s = w ++ drop (length w) s.
Proof.
  revert s. induction w as [|a w IH]; intros [|b s]; simpl; try done.
  intros [->%N.eqb_eq H]%andb_true_iff. f_equal. by apply IH.
Qed.

Section ChunkerFacts.
Local Open Scope nat_scope.
Implicit Types (s p text gap : str) (ps gs spans : list (nat * str)).
Implicit Types (cur : option (nat * str)) (seps : list str).

(** *** Splitting on a separator *)

Lemma cut_pending sep pending start s :
  pending ≤ length s →
  cut sep pending start s = cut sep 0 (start + pending) (drop pending s).
Proof.
  revert pending start.
  induction s as [|c s IH]; intros [|n] start H; simpl in H; try lia.
  - by rewrite Nat.add_0_r.
  - by rewrite Nat.add_0_r.
  - cbn [cut drop]. rewrite IH by lia. f_equal. lia.
Qed.

Lemma behind_cons sep o p ps :
  behind sep ((o, p) :: ps) = sep ++ p ++ behind sep ps.
Proof.
  unfold behind. cbn [fmap list_fmap concat snd]. by rewrite <- app_assoc.
Qed.

Lemma chained_eq sep pos pos' ps :
  pos = pos' → chained sep pos ps → chained sep pos' ps.
Proof. by intros ->. Qed.

(** The pieces of a cut: the first stands at the start of the span, and
    the span is the pieces with the separator between them. *)
Lemma cut_spec sep start s :
  sep ≠ [] →
  ∃ p rest, cut sep 0 start s = (start, p) :: rest
            ∧ s = p ++ behind sep rest
            ∧ chained sep (start + length p) rest.
Proof.
  intros Hsep. remember (length s) as n eqn:Hn.
  revert s start Hn. induction n as [n IH] using lt_wf_ind.
  intros [|c s] start Hn.
  - exists [], []. by rewrite app_nil_r.
  - cbn [cut]. destruct (startswith sep (c :: s)) eqn:Hs.
    + pose proof (startswith_split _ _ Hs) as Es.
      destruct sep as [|x sep]; [done|]. cbn [length pred] in *.
      assert (length sep ≤ length s) as Hlen.
      { apply (f_equal length) in Es. rewrite length_app in Es.
        simpl in Es. lia. }
      rewrite cut_pending by done.
      destruct (IH (length (drop (length sep) s))
                  ltac:(rewrite length_drop; simpl in Hn; lia)
                  (drop (length sep) s) (S start + length sep) eq_refl)
        as (p & rest & -> & Ep & Hc).
      exists [], ((S start + length sep, p) :: rest). split; [done|].
      split.
      * rewrite behind_cons, <- Ep. exact Es.
      * cbn [chained length]. split; [lia|done].
    + destruct (IH (length s) ltac:(simpl in Hn; lia) s (S start) eq_refl)
        as (p & rest & -> & Ep & Hc).
      exists (c :: p), rest. split; [done|]. split.
      * cbn [app]. by rewrite <- Ep.
      * eapply chained_eq; [|exact Hc]. simpl. lia.
Qed.

Lemma characters_behind start s : behind [] (characters start s) = s.
Proof.
  revert start. induction s as [|c s IH]; intros start; [done|].
  cbn [characters behind fmap list_fmap concat app snd].
  f_equal. apply IH.
Qed.

Lemma characters_chained start s : chained [] start (characters start s).
Proof.
  revert start. induction s as [|c s IH]; intros start; [done|].
  cbn [characters chained length]. split; [lia|].
  eapply chained_eq; [|apply IH]. lia.
Qed.


Lemma pieces_spec sep start s :
  s ≠ [] ∨ sep ≠ [] →
  ∃ p rest, pieces sep start s = (start, p) :: rest
            ∧ s = p ++ behind sep rest
            ∧ chained sep (start + length p) rest.
Proof.
  intros H. destruct sep as [|x sep]; [|by apply cut_spec].
  destruct s as [|c s]; [by destruct H|].
  exists [c], (characters (S start) s). split; [done|]. split.
  - cbn [app]. by rewrite characters_behind.
  - eapply chained_eq; [|apply characters_chained]. simpl. lia.
Qed.

(** *** Texts laid out as spans and separators *)

Lemma separators_only_nil seps : separators_only seps [].
Proof. by exists []. Qed.

Lemma separators_only_app seps gap gap' :
  separators_only seps gap → separators_only seps gap' →
  separators_only seps (gap ++ gap').
Proof.
  intros (ss & Hss & ->) (ss' & Hss' & ->). exists (ss ++ ss').
  split; [by apply Forall_app|]. by rewrite concat_app.
Qed.

Lemma separators_only_one seps sep :
  sep = [] ∨ sep ∈ seps → separators_only seps sep.
Proof.
  intros [-> | H]; [apply separators_only_nil|].
  exists [sep]. split; [by repeat constructor|].
  simpl. by rewrite app_nil_r.
Qed.

Lemma separators_only_mono seps seps' gap :
  seps ⊆ seps' → separators_only seps gap → separators_only seps' gap.
Proof.
  intros Hsub (ss & Hss & ->). exists ss. split; [|done].
  eapply Forall_impl; [exact Hss|]. intros sep. apply Hsub.
Qed.

(** The rule for a span, with the text and the offset given by
    equations. *)
Lemma laid_out_at seps start text gap g rest spans o :
  text = gap ++ g ++ rest → o = start + length gap →
  separators_only seps gap →
  laid_out seps (o + length g) rest spans →
  laid_out seps start text ((o, g) :: spans).
Proof. intros -> -> Hgap H. by constructor. Qed.

Lemma laid_out_single seps start g : laid_out seps start g [(start, g)].
Proof.
  apply (laid_out_at seps start g [] g []);
    [by rewrite app_nil_r|simpl; lia| |].
  - apply separators_only_nil.
  - constructor. apply separators_only_nil.
Qed.

Lemma laid_out_gap seps start gap text spans :
  separators_only seps gap →
  laid_out seps (start + length gap) text spans →
  laid_out seps start (gap ++ text) spans.
Proof.
  intros Hgap H. inversion H as [? gap' Hgap'|? gap' g rest spans' Hgap' H'];
    subst.
  - constructor. by apply separators_only_app.
  - apply (laid_out_at seps start _ (gap ++ gap') g rest).
    + by rewrite <- !app_assoc.
    + rewrite length_app. lia.
    + by apply separators_only_app.
    + exact H'.
Qed.

Lemma laid_out_app seps start text spans pos text' spans' :
  laid_out seps start text spans →
  pos = start + length text →
  laid_out seps pos text' spans' →
  laid_out seps start (text ++ text') (spans ++ spans').
Proof.
  intros H. revert pos.
  induction H as [start gap Hgap|start gap g rest spans Hgap H IH];
    intros pos -> H'.
  - by apply laid_out_gap.
  - cbn [app]. apply (laid_out_at seps start _ gap g (rest ++ text')).
    + by rewrite <- !app_assoc.
    + done.
    + done.
    + apply (IH (start + length gap + length g + length rest)); [done|].
      rewrite !length_app in H'.
      by replace (start + length gap + length g + length rest)
        with (start + (length gap + (length g + length rest))) by lia.
Qed.

Lemma laid_out_mono seps seps' start text spans :
  seps ⊆ seps' → laid_out seps start text spans →
  laid_out seps' start text spans.
Proof.
  intros Hsub H. induction H; constructor;
    eauto using separators_only_mono.
Qed.

Lemma laid_out_flush seps start g :
  laid_out seps start g (flush (Some (start, g))).
Proof.
  destruct g as [|c g]; cbn [flush].
  - constructor. apply separators_only_nil.
  - apply laid_out_single.
Qed.

(** *** Regrouping *)

(** Regrouping lays the text out as groups and separators, as long as
    the finer split does so. *)
Lemma regroup_laid_out seps max sep finer ps :
  sep = [] ∨ sep ∈ seps →
  (∀ o p, laid_out seps o p (finer o p)) →
  ∀ cur start,
    (∀ o g, cur = Some (o, g) → o = start) →
    chained sep (start + length (from_option snd [] cur)) ps →
    laid_out seps start (from_option snd [] cur ++ behind sep ps)
      (regroup max sep finer cur ps).
Proof.
  intros Hsep Hf. pose proof (separators_only_one seps sep Hsep) as Hgap.
  induction ps as [|[o1 p1] ps IH]; intros cur start Hcur Hch.
  - cbn [regroup behind fmap list_fmap concat]. rewrite app_nil_r.
    destruct cur as [[o g]|]; cbn [from_option snd].
    + rewrite (Hcur o g eq_refl). apply laid_out_flush.
    + constructor. apply separators_only_nil.
  - cbn [chained] in Hch. destruct Hch as [Ho1 Hch].
    rewrite behind_cons.
    assert (laid_out seps start (from_option snd [] cur) (flush cur))
      as Hflush.
    { destruct cur as [[o g]|]; cbn [from_option snd].
      - rewrite (Hcur o g eq_refl). apply laid_out_flush.
      - constructor. apply separators_only_nil. }
    cbn [regroup]. destruct (max <? length p1).
    + eapply laid_out_app; [exact Hflush|reflexivity|].
      apply laid_out_gap; [done|]. rewrite <- Ho1.
      eapply laid_out_app; [apply Hf|reflexivity|].
      apply (IH None (o1 + length p1)); [done|].
      cbn [from_option length]. by rewrite Nat.add_0_r.
    + destruct cur as [[o g]|]; cbn [from_option snd length app] in *.
      * pose proof (Hcur o g eq_refl) as ->.
        destruct (length g + length sep + length p1 <=? max).
        -- rewrite !app_assoc, <- (app_assoc g).
           apply (IH (Some (start, g ++ sep ++ p1)) start).
           ++ by intros ? ? [= <- _].
           ++ cbn [from_option snd]. rewrite !length_app.
              eapply chained_eq; [|exact Hch]. lia.
        -- eapply laid_out_app; [exact Hflush|reflexivity|].
           apply laid_out_gap; [done|]. rewrite <- Ho1.
           apply (IH (Some (o1, p1)) o1); [by intros ? ? [= <- _]|done].
      * rewrite Nat.add_0_r in Ho1. apply laid_out_gap; [done|].
        rewrite <- Ho1.
        apply (IH (Some (o1, p1)) o1); [by intros ? ? [= <- _]|done].
Qed.

(** The same for the pieces of a span. *)
Lemma regroup_pieces_laid_out seps max sep finer start text :
  sep = [] ∨ sep ∈ seps →
  (∀ o p, laid_out seps o p (finer o p)) →
  laid_out seps start text
    (regroup max sep finer None (pieces sep start text)).
Proof.
  intros Hsep Hf.
  destruct (decide (text = [] ∧ sep = [])) as [[-> ->]|Hne].
  { constructor. apply separators_only_nil. }
  destruct (pieces_spec sep start text) as (p & rest & -> & -> & Hch).
  { destruct text as [|c t]; [|by left].
    destruct sep; [by destruct Hne|by right]. }
  cbn [regroup]. destruct (max <? length p).
  - cbn [flush app]. eapply laid_out_app; [apply Hf|reflexivity|].
    apply (regroup_laid_out seps max sep finer rest Hsep Hf None
             (start + length p)); [done|].
    cbn [from_option length]. by rewrite Nat.add_0_r.
  - by apply (regroup_laid_out seps max sep finer rest Hsep Hf
                (Some (start, p)) start); [intros ? ? [= <- _]|].
Qed.




(** *** The split of a span *)

Lemma split_span_laid_out seps0 seps max start text :
  seps ⊆ seps0 →
  laid_out seps0 start text (split_span seps max start text).
Proof.
  revert start text. induction seps as [|sep seps IH];
    intros start text Hsub; cbn [split_span].
  - apply regroup_pieces_laid_out; [by left|].
    intros o p. apply laid_out_single.
  - apply regroup_pieces_laid_out.
    + right. apply Hsub. by left.
    + intros o p. apply IH. intros x Hx. apply Hsub. by right.
Qed.



Lemma groups_laid_out seps max text :
  laid_out seps 0 text (groups seps max text).
Proof.
  destruct text as [|c t]; [constructor; apply separators_only_nil|].
  unfold groups. destruct (length (c :: t) <=? max).
  - apply laid_out_single.
  - by apply split_span_laid_out.
Qed.



(** *** The overlap *)

Lemma trailing_length n s : length (trailing n s) = Nat.min n (length s).
Proof. unfold trailing. rewrite length_drop. lia. Qed.


Lemma strip_with_overlap overlap prev index gs :
  strip_overlaps overlap (Some prev) (with_overlap overlap prev index gs)
  = gs.*2.
Proof.
  revert prev index.
  induction gs as [|[o g] gs IH]; intros prev index; [done|].
  cbn [with_overlap strip_overlaps content fmap list_fmap snd].
  rewrite IH. f_equal.
  rewrite <- trailing_length. by rewrite drop_app_length.
Qed.

Lemma with_overlap_offsets overlap prev index gs :
  start_offset <$> with_overlap overlap prev index gs = gs.*1.
Proof.
  revert prev index.
  induction gs as [|[o g] gs IH]; intros prev index; [done|].
  cbn [with_overlap fmap list_fmap start_offset fst]. f_equal. apply IH.
Qed.

Lemma with_overlap_indices overlap prev index gs :
  sequence_index <$> with_overlap overlap prev index gs
  = seq index (length gs).
Proof.
  revert prev index.
  induction gs as [|[o g] gs IH]; intros prev index; [done|].
  cbn [with_overlap fmap list_fmap length seq]. f_equal. apply IH.
Qed.

(** Without their overlap prefixes the chunks are the groups. *)
Lemma own_spans_with_overlap overlap gs :
  own_spans overlap (with_overlap overlap [] 0 gs) = gs.
Proof.
  unfold own_spans. rewrite with_overlap_offsets.
  destruct gs as [|[o g] gs]; [done|].
  cbn [with_overlap strip_overlaps content].
  rewrite strip_with_overlap. apply (zip_fst_snd ((o, g) :: gs)).
Qed.

Lemma reassemble_with_overlap overlap gs :
  reassemble overlap (with_overlap overlap [] 0 gs) = concat gs.*2.
Proof.
  unfold reassemble. destruct gs as [|[o g] gs]; [done|].
  cbn [with_overlap strip_overlaps content].
  by rewrite strip_with_overlap.
Qed.

End ChunkerFacts.

Lemma split_with_valid (seps : list str) (text : str)
    (max_chunk_size overlap : nat) :
  (overlap < max_chunk_size)%nat →
  split_with seps text max_chunk_size overlap
  = Ok (with_overlap overlap [] 0 (groups seps max_chunk_size text)).
Proof.
  intros H. unfold split_with.
  destruct (Nat.leb_spec max_chunk_size overlap); [lia|done].
Qed.

(** The chunks of [split_with] as the data model describes them: the
    chunks' own texts lie in the text at their start offsets, in order,
    and the indices count from 0 without gaps. *)
Lemma split_with_data_model (seps : list str) (text : str)
    (max_chunk_size overlap : nat) (chunks : list Chunk) :
  split_with seps text max_chunk_size overlap = Ok chunks →
  laid_out seps 0 text (own_spans overlap chunks)
  ∧ sequence_index <$> chunks = seq 0 (length chunks).
Proof.
  unfold split_with.
  destruct (max_chunk_size <=? overlap)%nat; [done|]. intros [= <-].
  split.
  - rewrite own_spans_with_overlap. apply groups_laid_out.
  - rewrite with_overlap_indices. f_equal.
    pose proof (f_equal length
                  (with_overlap_indices overlap [] 0
                     (groups seps max_chunk_size text))) as H.
    by rewrite length_fmap, length_seq in H.
Qed.

(** C4, the claim as stated fails: a separator at which the text is cut
    belongs to no chunk.  The text of two words of four characters and a
    blank line between them gives the two words as chunks, and the blank
    line is not in what the chunks re-assemble to. *)
Lemma reassembly_drops_separator :
  split (py "aaaa" ++ nl ++ nl ++ py "bbbb") 4 1
  = Ok [ {| content := py "aaaa"; start_offset := 0; sequence_index := 0 |};
         {| content := py "abbbb"; start_offset := 6; sequence_index := 1 |} ]
  ∧ ¬ ∃ chunks,
        split (py "aaaa" ++ nl ++ nl ++ py "bbbb") 4 1 = Ok chunks
        ∧ reassemble 1 chunks = py "aaaa" ++ nl ++ nl ++ py "bbbb".
Proof.
  split; [vm_compute; reflexivity|].
  intros (chunks & H & Hr). vm_compute in H. injection H as <-.
  vm_compute in Hr. discriminate Hr.
Qed.

(** C4 as amended: for every text and every valid pair of parameters the
    chunks' contents, the overlap prefix removed from every chunk but the
    first, are spans of the text that stand at the chunks' start offsets,
    in order and side by side but for separators: the text consists of
    them and of the separators at which it was cut.  A text within the
    chunk size is re-assembled exactly. *)
Theorem reassembly_up_to_separators (seps : list str) (text : str)
    (max_chunk_size overlap : nat) :
  (overlap < max_chunk_size)%nat →
  ∃ chunks,
    split_with seps text max_chunk_size overlap = Ok chunks
    ∧ laid_out seps 0 text (own_spans overlap chunks)
    ∧ ((length text ≤ max_chunk_size)%nat →
       reassemble overlap chunks = text).
Proof.
  intros H. eexists. split; [by apply split_with_valid|]. split.
  - rewrite own_spans_with_overlap. apply groups_laid_out.
  - intros Hlen. rewrite reassemble_with_overlap. unfold groups.
    destruct text as [|c t]; [done|].
    destruct (Nat.leb_spec (length (c :: t)) max_chunk_size); [|lia].
    simpl. by rewrite app_nil_r.
Qed.

Lemma reassembly_up_to_separators_witness :
  ∃ chunks,
    split_with default_separators (py "ab cd. ef" ++ nl ++ nl ++ py "ghijklm")
      4 2 = Ok chunks
    ∧ laid_out default_separators 0
        (py "ab cd. ef" ++ nl ++ nl ++ py "ghijklm") (own_spans 2 chunks)
    ∧ ((length (py "ab cd. ef" ++ nl ++ nl ++ py "ghijklm") ≤ 4)%nat →
       reassemble 2 chunks = py "ab cd. ef" ++ nl ++ nl ++ py "ghijklm").
Proof.
  apply (reassembly_up_to_separators default_separators
           (py "ab cd. ef" ++ nl ++ nl ++ py "ghijklm") 4 2).
  lia.
Defined.

(** C5, the claim as stated fails: the empty text is within every chunk
    size, and for it the chunker returns no chunk at all. *)
Lemma empty_text_has_no_chunk :
  (length ([] : str) ≤ 4000)%nat
  ∧ split [] 4000 200 = Ok []
  ∧ ¬ ∃ c : Chunk, split [] 4000 200 = Ok [c] ∧ content c = [].
Proof.
  split; [simpl; lia|]. split; [reflexivity|].
  intros (c & H & _). discriminate H.
Qed.

(** C5 as amended: for every text that is not empty and not longer than
    the chunk size, and valid parameters, the chunker returns exactly one
    chunk; its content is the text and its start offset is 0. *)
Theorem short_text_single_chunk (seps : list str) (text : str)
    (max_chunk_size overlap : nat) :
  text ≠ [] →
  (length text ≤ max_chunk_size)%nat →
  (overlap < max_chunk_size)%nat →
  split_with seps text max_chunk_size overlap
  = Ok [ {| content := text; start_offset := 0; sequence_index := 0 |} ].
Proof.
  intros Hne Hlen Hov. rewrite split_with_valid by done.
  unfold groups. destruct text as [|c t]; [done|].
  destruct (Nat.leb_spec (length (c :: t)) max_chunk_size); [|lia].
  reflexivity.
Qed.

Lemma short_text_single_chunk_witness :
  split (py "Title: T") 4000 200
  = Ok [ {| content := py "Title: T"; start_offset := 0;
            sequence_index := 0 |} ].
Proof.
  apply (short_text_single_chunk default_separators (py "Title: T") 4000 200).
  - discriminate.
  - simpl. lia.
  - lia.
Defined.



Import Direct.

(** ** The searches of the parser, by the places of the markers *)

Lemma ci_prefix_split (w s : str) :
  ci_prefix w s = true →
  ∃ w', s = w' ++ drop (length w) s ∧ ci_word w w' = true.
Proof.
  revert s. induction w as [|p w IH]; intros s; simpl.
  - intros _. exists []. by rewrite drop_0.
  - destruct s as [|x s]; [done|]. intros [Hp Hw]%andb_true_iff.
    destruct (IH _ Hw) as (w' & Hs & Hw').
    exists (x :: w'). simpl. rewrite Hp, Hw'. split; [|done].
    by rewrite <- Hs.
Qed.

(** A literal word either stands at the head of the text, and the match
    goes on behind it, or the match fails. *)
Lemma rmatch_lit_accept (w s : str) (prev : option char) (g : option str) :
  rmatch I_S (lit w) prev s g accept
  = if ci_prefix w s
    then Some {| rest := drop (length w) s; group := g |}
    else None.
Proof.
  destruct (ci_prefix w s) eqn:E; [|by apply rmatch_lit_fails].
  destruct (ci_prefix_split _ _ E) as (w' & Hs & Hw).
  rewrite Hs at 1. by rewrite rmatch_lit_here.
Qed.

Lemma split_at_ci_None (w s : str) :
  split_at_ci w s = None ↔ contains_ci w s = false.
Proof.
  induction s as [|c s IH]; cbn [split_at_ci contains_ci].
  - destruct (ci_prefix w []); [split; done|]. by rewrite orb_false_r.
  - destruct (ci_prefix w (c :: s)); [split; done|]. simpl.
    destruct (split_at_ci w s) as [[u v]|]; [|tauto].
    split; [done|]. intros H. by apply IH in H.
Qed.

Lemma after_ci_split (w s : str) :
  after_ci w s = snd <$> split_at_ci w s.
Proof.
  induction s as [|c s IH]; cbn [after_ci split_at_ci].
  - by destruct (ci_prefix w []).
  - destruct (ci_prefix w (c :: s)); [done|]. rewrite IH.
    by destruct (split_at_ci w s) as [[u v]|].
Qed.

(** The lazy group of the first pattern ends at the first KEY CONCEPTS: *)
Lemma lazy_until_key (pre s : str) (prev : option char) :
  rep_lazy (char_in I_S CAny) 0 prev s
    (λ prev' s',
       rmatch I_S (lit KEY_CONCEPTS) prev' s'
         (Some (take (length (pre ++ s) - length s') (pre ++ s))) accept)
  = match split_at_ci KEY_CONCEPTS s with
    | Some (u, v) => Some {| rest := v; group := Some (pre ++ u) |}
    | None => None
    end.
Proof.
  revert pre prev. induction s as [|c s IH]; intros pre prev.
  - cbn [rep_lazy]. rewrite rmatch_lit_accept. reflexivity.
  - cbn [rep_lazy split_at_ci]. rewrite rmatch_lit_accept.
    destruct (ci_prefix KEY_CONCEPTS (c :: s)) eqn:E.
    + do 3 f_equal. rewrite length_app.
      replace (length pre + length (c :: s) - length (c :: s))%nat
        with (length pre) by lia.
      by rewrite take_app_length, app_nil_r.
    + change (char_in I_S CAny c) with true. cbn [pred].
      specialize (IH (pre ++ [c]) (Some c)).
      rewrite <- !app_assoc in IH. cbn [app] in IH. rewrite IH.
      destruct (split_at_ci KEY_CONCEPTS s) as [[u v]|]; [|done].
      by rewrite <- app_assoc.
Qed.

Lemma summary_re_here (prev : option char) (s : str) :
  match_here I_S summary_re prev s
  = if ci_prefix FINAL_SUMMARY s then
      match split_at_ci KEY_CONCEPTS (drop (length FINAL_SUMMARY) s) with
      | Some (u, v) => Some {| rest := v; group := Some u |}
      | None => None
      end
    else None.
Proof.
  unfold match_here, summary_re. cbn [rmatch].
  destruct (ci_prefix FINAL_SUMMARY s) eqn:E; [|by apply rmatch_lit_fails].
  destruct (ci_prefix_split _ _ E) as (w' & Hs & Hw).
  rewrite Hs at 1. rewrite rmatch_lit_here by done.
  apply (lazy_until_key []).
Qed.

(** A later FINAL SUMMARY: has no KEY CONCEPTS: behind it if the first one
    has none. *)
Lemma summary_re_search_refined (prev : option char) (s : str) (m : re_match) :
  search_from I_S summary_re prev s = Some m →
  ∃ t, t `suffix_of` s ∧ ci_prefix FINAL_SUMMARY t = true
       ∧ contains_ci KEY_CONCEPTS (drop (length FINAL_SUMMARY) t) = true.
Proof.
  revert prev. induction s as [|c s IH]; intros prev; rewrite search_from_eq;
    rewrite summary_re_here.
  - by destruct (ci_prefix FINAL_SUMMARY []).
  - destruct (ci_prefix FINAL_SUMMARY (c :: s)) eqn:E.
    + destruct (split_at_ci KEY_CONCEPTS _) as [[u v]|] eqn:Es.
      * intros _. exists (c :: s). split; [done|]. split; [done|].
        destruct (contains_ci KEY_CONCEPTS _) eqn:Ec; [done|].
        apply split_at_ci_None in Ec. congruence.
      * intros H. apply IH in H as (t & Ht & H1 & H2).
        exists t. split; [by apply suffix_cons_r|done].
    + intros H. apply IH in H as (t & Ht & H1 & H2).
      exists t. split; [by apply suffix_cons_r|done].
Qed.

Lemma contains_ci_suffix_of (w s' s : str) :
  s' `suffix_of` s → contains_ci w s' = true → contains_ci w s = true.
Proof.
  intros [u ->] H. induction u as [|c u IH]; [done|].
  by apply contains_ci_cons.
Qed.

Lemma drop_suffix_mono (n : nat) (t s : str) :
  t `suffix_of` s → drop n t `suffix_of` drop n s.
Proof.
  intros [u ->]. rewrite drop_app. apply suffix_app_r.
  replace (drop n t) with (drop (n - (n - length u)) (drop (n - length u) t)).
  - apply suffix_drop.
  - rewrite drop_drop. f_equal. lia.
Qed.

Lemma summary_search (prev : option char) (s : str) :
  search_from I_S summary_re prev s
  = match after_ci FINAL_SUMMARY s with
    | Some t =>
        match split_at_ci KEY_CONCEPTS t with
        | Some (u, v) => Some {| rest := v; group := Some u |}
        | None => None
        end
    | None => None
    end.
Proof.
  revert prev. induction s as [|c s IH]; intros prev; rewrite search_from_eq;
    rewrite summary_re_here; cbn [after_ci].
  - by destruct (ci_prefix FINAL_SUMMARY []).
  - destruct (ci_prefix FINAL_SUMMARY (c :: s)) eqn:E; [|apply IH].
    destruct (split_at_ci KEY_CONCEPTS _) as [[u v]|] eqn:Es; [done|].
    destruct (search_from I_S summary_re (Some c) s) as [m|] eqn:Em; [|done].
    exfalso. apply summary_re_search_refined in Em as (t & Ht & H1 & H2).
    apply split_at_ci_None in Es.
    assert (contains_ci KEY_CONCEPTS
              (drop (length FINAL_SUMMARY) (c :: s)) = true); [|congruence].
    eapply contains_ci_suffix_of; [|exact H2].
    apply drop_suffix_mono. by apply suffix_cons_r.
Qed.

Lemma concepts_re_here (prev : option char) (s : str) :
  match_here I_S concepts_re prev s
  = if ci_prefix KEY_CONCEPTS s
    then Some {| rest := [];
                 group := Some (drop (length KEY_CONCEPTS) s) |}
    else None.
Proof.
  unfold match_here, concepts_re. cbn [rmatch].
  destruct (ci_prefix KEY_CONCEPTS s) eqn:E; [|by apply rmatch_lit_fails].
  destruct (ci_prefix_split _ _ E) as (w' & Hs & Hw).
  rewrite Hs at 1. rewrite rmatch_lit_here by done.
  set (t := drop (length KEY_CONCEPTS) s).
  rewrite (rep_greedy_all _ t _
             (λ s', {| rest := s';
                       group := Some (take (length t - length s') t) |})).
  - cbn [length]. by rewrite Nat.sub_0_r, firstn_all.
  - apply Forall_forall. done.
Qed.

Lemma concepts_search_direct (prev : option char) (s : str) :
  search_from I_S concepts_re prev s
  = (λ t, {| rest := []; group := Some t |}) <$> after_ci KEY_CONCEPTS s.
Proof.
  revert prev. induction s as [|c s IH]; intros prev; rewrite search_from_eq;
    rewrite concepts_re_here; cbn [after_ci].
  - by destruct (ci_prefix KEY_CONCEPTS []).
  - destruct (ci_prefix KEY_CONCEPTS (c :: s)); [done|]. apply IH.
Qed.

Lemma parse_direct_eq (raw : str) :
  _parse_llm_output raw = parse_direct raw.
Proof.
  unfold _parse_llm_output, _parse_llm_output_with, parse_try, python_re,
    parse_direct.
  cbn [re_search re_findall mbind outcome_bind]. unfold search.
  rewrite summary_search, concepts_search_direct.
  destruct (after_ci FINAL_SUMMARY raw) as [t|];
    [|by destruct (after_ci KEY_CONCEPTS raw)].
  destruct (split_at_ci KEY_CONCEPTS t) as [[u v]|];
    [|by destruct (after_ci KEY_CONCEPTS raw)].
  destruct (after_ci KEY_CONCEPTS raw) as [span|]; reflexivity.
Qed.

(** X1: the parser's result is fixed by the places of the markers: the
    summary is the trimmed text between the first FINAL SUMMARY: and the
    first KEY CONCEPTS: behind it, the concepts come from the text behind
    the first KEY CONCEPTS: of the whole output, and without a
    KEY CONCEPTS: behind the first FINAL SUMMARY: the raw text is
    returned. *)
Theorem parse_by_marker_places (raw : str) :
  _parse_llm_output raw = parse_direct raw.
Proof. apply parse_direct_eq. Qed.

(** ** Trimming *)

Lemma lstrip_split (s : str) :
  ∃ ws, s = ws ++ lstrip s ∧ Forall (λ a, is_space a = true) ws.
Proof.
  induction s as [|c s (ws & Hs & Hws)]; [by exists []|].
  cbn [lstrip]. destruct (is_space c) eqn:E.
  - exists (c :: ws). split; [by rewrite Hs at 1|by constructor].
  - by exists [].
Qed.

Lemma lstrip_head (s : str) (x : char) (r : str) :
  lstrip s = x :: r → is_space x = false.
Proof.
  induction s as [|c s IH]; [done|]. cbn [lstrip].
  destruct (is_space c) eqn:E; [done|]. by intros [= <- _].
Qed.

Lemma lstrip_fixed (x : char) (r : str) :
  is_space x = false → lstrip (x :: r) = x :: r.
Proof. intros H. cbn [lstrip]. by rewrite H. Qed.

Lemma rstrip_split (s : str) :
  ∃ ws, s = rstrip s ++ ws ∧ Forall (λ a, is_space a = true) ws.
Proof.
  unfold rstrip. destruct (lstrip_split (reverse s)) as (ws & Hs & Hws).
  exists (reverse ws). split; [|by apply Forall_reverse].
  rewrite <- reverse_app, <- Hs. by rewrite reverse_involutive.
Qed.

Lemma rstrip_last (s m : str) (z : char) :
  rstrip s = m ++ [z] → is_space z = false.
Proof.
  unfold rstrip. intros H. apply (f_equal reverse) in H.
  rewrite reverse_involutive, reverse_snoc in H. by apply lstrip_head in H.
Qed.

Lemma rstrip_cons_nonspace (x : char) (m : str) :
  is_space x = false → rstrip (x :: m) = x :: rstrip m.
Proof.
  intros Hx. unfold rstrip. rewrite reverse_cons.
  assert (∀ l, lstrip (l ++ [x]) = lstrip l ++ [x]) as ->.
  { induction l as [|a l IH]; cbn [app lstrip]; [by rewrite Hx|].
    by destruct (is_space a). }
  by rewrite reverse_snoc.
Qed.

Lemma strip_fixed (s : str) :
  (∀ x r, s = x :: r → is_space x = false) →
  (∀ m z, s = m ++ [z] → is_space z = false) →
  strip s = s.
Proof.
  intros Hh Hl. unfold strip.
  assert (lstrip s = s) as ->.
  { destruct s as [|x r]; [done|]. apply lstrip_fixed. eauto. }
  destruct (rstrip_split s) as (ws & Hs & Hws).
  destruct ws as [|w ws _] using rev_ind; [by rewrite app_nil_r in Hs|].
  rewrite app_assoc in Hs. apply Hl in Hs.
  apply Forall_app in Hws as [_ Hw]. inversion Hw; congruence.
Qed.

(** Trimming once is enough. *)
Lemma strip_idemp (s : str) : strip (strip s) = strip s.
Proof.
  apply strip_fixed.
  - intros x r H. unfold strip in H.
    destruct (lstrip s) as [|y l] eqn:E; [done|].
    pose proof (lstrip_head _ _ _ E) as Hy.
    rewrite rstrip_cons_nonspace in H by done. by injection H as <- _.
  - intros m z H. by apply rstrip_last in H.
Qed.

Lemma strip_length (s : str) : (length (strip s) ≤ length s)%nat.
Proof.
  unfold strip. destruct (lstrip_split s) as (ws & Hs & _).
  destruct (rstrip_split (lstrip s)) as (ws' & Hs' & _).
  rewrite Hs at 2. rewrite Hs' at 2. rewrite !length_app. lia.
Qed.

(** The trimmed text stands in the text as it is. *)
Lemma strip_infix (s : str) : ∃ a b, s = a ++ strip s ++ b.
Proof.
  unfold strip. destruct (lstrip_split s) as (ws & Hs & _).
  destruct (rstrip_split (lstrip s)) as (ws' & Hs' & _).
  exists ws, ws'. by rewrite <- Hs', <- Hs.
Qed.

(** ** The shape of what the parser returns *)

Lemma ci_prefix_length (w s : str) :
  ci_prefix w s = true → (length w ≤ length s)%nat.
Proof.
  revert s. induction w as [|p w IH]; intros [|x s]; simpl; try done; try lia.
  intros [_ H]%andb_true_iff. apply IH in H. lia.
Qed.

Lemma ci_prefix_app (w s b : str) :
  ci_prefix w s = true → ci_prefix w (s ++ b) = true.
Proof.
  revert s. induction w as [|p w IH]; intros [|x s]; simpl; try done.
  intros [-> H]%andb_true_iff. by apply IH.
Qed.

Lemma contains_ci_app_r (w s b : str) :
  contains_ci w s = true → contains_ci w (s ++ b) = true.
Proof.
  induction s as [|c s IH]; cbn [contains_ci app].
  - rewrite orb_false_r. intros H.
    apply (ci_prefix_app _ _ b) in H. cbn [app] in H.
    destruct b; cbn [contains_ci]; by rewrite H.
  - intros [H|H]%orb_true_iff.
    + apply (ci_prefix_app _ _ b) in H. cbn [app] in H. by rewrite H.
    + rewrite IH by done. apply orb_true_r.
Qed.

Lemma split_at_ci_app (w s u v : str) :
  split_at_ci w s = Some (u, v) → ∃ r, s = u ++ r.
Proof.
  revert u. induction s as [|c s IH]; intros u; cbn [split_at_ci].
  - destruct (ci_prefix w []); [|done]. intros [= <- _]. by exists [].
  - destruct (ci_prefix w (c :: s)); [intros [= <- _]; by exists (c :: s)|].
    destruct (split_at_ci w s) as [[u2 v2]|]; [|done].
    intros [= <- <-]. destruct (IH _ eq_refl) as [r ->]. by exists r.
Qed.

(** Before the first occurrence of a marker there is none. *)
Lemma split_at_ci_spec (w s u v : str) :
  split_at_ci w s = Some (u, v) →
  (length u + length w + length v = length s)%nat
  ∧ (w ≠ [] → contains_ci w u = false).
Proof.
  revert u. induction s as [|c s IH]; intros u; cbn [split_at_ci].
  - destruct (ci_prefix w []) eqn:E; [|done]. intros [= <- <-].
    apply ci_prefix_length in E. rewrite length_drop. split; [simpl in *; lia|].
    by destruct w.
  - destruct (ci_prefix w (c :: s)) eqn:E.
    + intros [= <- <-]. apply ci_prefix_length in E.
      rewrite length_drop. split; [simpl in *; lia|]. by destruct w.
    + destruct (split_at_ci w s) as [[u' v']|] eqn:Es; [|done].
      intros [= <- <-]. destruct (IH _ eq_refl) as [Hl Hc].
      split; [simpl; lia|]. intros Hw. cbn [contains_ci].
      rewrite (Hc Hw), orb_false_r.
      destruct (ci_prefix w (c :: u')) eqn:E'; [|done].
      destruct (split_at_ci_app _ _ _ _ Es) as [r Hs].
      rewrite Hs, app_comm_cons in E.
      by rewrite (ci_prefix_app _ _ _ E') in E.
Qed.

Lemma after_ci_length (w s t : str) :
  after_ci w s = Some t → (length t + length w ≤ length s)%nat.
Proof.
  rewrite after_ci_split.
  destruct (split_at_ci w s) as [[u v]|] eqn:E; [|done].
  intros [= <-]. apply split_at_ci_spec in E as [E _]. simpl. lia.
Qed.

Lemma after_ci_suffix (w s t : str) :
  after_ci w s = Some t → t `suffix_of` s.
Proof.
  revert t. induction s as [|c s IH]; intros t; cbn [after_ci].
  - destruct (ci_prefix w []); [|done]. intros [= <-]. apply suffix_drop.
  - destruct (ci_prefix w (c :: s)).
    + intros [= <-]. apply suffix_drop.
    + intros H. apply suffix_cons_r. by apply IH.
Qed.

(** With the markers in order the parser takes the summary and the
    concepts from the text; otherwise it falls back. *)
Lemma parse_direct_cases (raw : str) :
  (markers_in_order raw = false ∧ parse_direct raw = fallback raw)
  ∨ (markers_in_order raw = true
     ∧ ∃ t u v span,
         after_ci FINAL_SUMMARY raw = Some t
         ∧ split_at_ci KEY_CONCEPTS t = Some (u, v)
         ∧ after_ci KEY_CONCEPTS raw = Some span
         ∧ parse_direct raw
           = {| summary := strip u; key_concepts := concepts_of span |}).
Proof.
  unfold markers_in_order, parse_direct.
  destruct (after_ci FINAL_SUMMARY raw) as [t|] eqn:Et; [|by left].
  destruct (split_at_ci KEY_CONCEPTS t) as [[u v]|] eqn:Es.
  - assert (contains_ci KEY_CONCEPTS t = true) as Hc.
    { destruct (contains_ci KEY_CONCEPTS t) eqn:Hc; [done|].
      apply split_at_ci_None in Hc. congruence. }
    right. split; [done|].
    destruct (after_ci KEY_CONCEPTS raw) as [span|] eqn:Ek.
    + by exists t, u, v, span.
    + exfalso. rewrite after_ci_split in Ek.
      destruct (split_at_ci KEY_CONCEPTS raw) as [[? ?]|] eqn:E2; [done|].
      apply split_at_ci_None in E2.
      apply after_ci_suffix in Et.
      by rewrite (contains_ci_suffix_of _ _ _ Et Hc) in E2.
  - left. by apply split_at_ci_None in Es.
Qed.

(** X2: the parser returns the fallback value, the raw text as summary
    and no concepts, exactly when no KEY CONCEPTS: stands behind the
    first FINAL SUMMARY:, also when both markers are there in the wrong
    order. *)
Theorem fallback_iff_markers_out_of_order (raw : str) :
  _parse_llm_output raw = {| summary := raw; key_concepts := [] |}
  ↔ markers_in_order raw = false.
Proof.
  rewrite parse_direct_eq.
  destruct (parse_direct_cases raw)
    as [[H ->] | [H (t & u & v & span & Et & Es & Ek & ->)]].
  - done.
  - split; [|congruence]. intros [= Hs _]. exfalso.
    pose proof (strip_length u). apply after_ci_length in Et.
    apply split_at_ci_spec in Es as [Es _].
    rewrite Hs in *. unfold FINAL_SUMMARY, KEY_CONCEPTS in *. simpl in *. lia.
Qed.

(** X3: when the parser does not fall back, the summary it returns has no
    whitespace around it and does not contain the marker KEY CONCEPTS:. *)
Theorem summary_trimmed_without_marker (raw : str) :
  markers_in_order raw = true →
  strip (summary (_parse_llm_output raw)) = summary (_parse_llm_output raw)
  ∧ contains_ci KEY_CONCEPTS (summary (_parse_llm_output raw)) = false.
Proof.
  intros Hin. rewrite parse_direct_eq.
  destruct (parse_direct_cases raw)
    as [[H _] | [_ (t & u & v & span & Et & Es & Ek & ->)]]; [congruence|].
  cbn [summary]. split; [apply strip_idemp|].
  apply split_at_ci_spec in Es as [_ Hc].
  destruct (contains_ci KEY_CONCEPTS (strip u)) eqn:E; [|done].
  destruct (strip_infix u) as (a & b & Hu).
  rewrite Hu in Hc. rewrite <- Hc; [|done]. symmetry.
  eapply contains_ci_suffix_of; [by apply suffix_app_r|].
  by apply contains_ci_app_r.
Qed.

Lemma summary_trimmed_without_marker_witness :
  strip (summary (_parse_llm_output well_formed_output))
  = summary (_parse_llm_output well_formed_output)
  ∧ contains_ci KEY_CONCEPTS (summary (_parse_llm_output well_formed_output))
    = false.
Proof.
  apply (summary_trimmed_without_marker well_formed_output).
  vm_compute. reflexivity.
Defined.

(** ** The key concepts *)

Section GroupFacts.
Context {R : Type}.

(** A lazy run hands on what it has passed over, all of it in the
    class. *)
Lemma rep_lazy_split (p : char → bool) (min : nat) (prev : option char)
    (s : str) (k : option char → str → option R) (x : R) :
  rep_lazy p min prev s k = Some x →
  ∃ u s' prev', s = u ++ s' ∧ Forall (λ a, p a = true) u
                ∧ k prev' s' = Some x.
Proof.
  revert min prev. induction s as [|c s IH]; intros min prev; simpl.
  - destruct min; [|done].
    destruct (k prev []) eqn:E; [|done]. intros [= <-].
    by exists [], [], prev.
  - assert ((if p c then rep_lazy p (pred min) (Some c) s k else None)
            = Some x →
            ∃ u s' prev', c :: s = u ++ s' ∧ Forall (λ a, p a = true) u
                          ∧ k prev' s' = Some x) as Hm.
    { destruct (p c) eqn:Hc; [|done]. intros H.
      destruct (IH _ _ H) as (u & s' & prev' & -> & Hu & Hk).
      exists (c :: u), s', prev'. split; [done|]. split; [|done].
      by constructor. }
    destruct min; [|done].
    destruct (k prev (c :: s)) eqn:E; [|done]. intros [= <-].
    by exists [], (c :: s), prev.
Qed.
End GroupFacts.

(** The group of a match of the list pattern lies within one line. *)
Lemma concept_re_group (prev : option char) (s : str) (g : option str)
    (m : re_match) :
  rmatch M concept_re prev s g accept = Some m →
  ∃ u, group m = Some u ∧ Forall (λ a, a ≠ LF) u.
Proof.
  unfold concept_re. cbn [rmatch]. intros H.
  apply rep_greedy_suffix in H as (p1 & s1 & _ & _ & H).
  apply rep_lazy_split in H as (u & s2 & p2 & -> & Hu & H).
  unfold line_end_re in H. cbn [rmatch] in H.
  apply rep_greedy_suffix in H as (p3 & s3 & _ & _ & H).
  destruct (at_eol M s3); [|done]. injection H as <-.
  exists u. cbn [group]. split.
  - rewrite length_app.
    replace (length u + length s2 - length s2)%nat with (length u) by lia.
    by rewrite take_app_length.
  - eapply Forall_impl; [exact Hu|]. intros a Ha ->. done.
Qed.

Lemma bullet_re_group (prev : option char) (s : str) (m : re_match) :
  match_here M bullet_re prev s = Some m →
  ∃ u, group m = Some u ∧ Forall (λ a, a ≠ LF) u.
Proof.
  unfold match_here, bullet_re. cbn [rmatch].
  destruct (at_bol M prev); [|done]. intros H.
  apply rep_greedy_suffix in H as (p1 & s1 & _ & _ & H).
  apply rmatch_suffix in H as (p2 & s2 & g2 & _ & _ & H).
  by apply concept_re_group in H.
Qed.

Lemma findall_bullet_lines (skip : nat) (prev : option char) (s : str) :
  Forall (λ c : str, Forall (λ a, a ≠ LF) c)
         (findall_from M bullet_re skip prev s).
Proof.
  revert skip prev. induction s as [|x s IH]; intros skip prev.
  - destruct skip; cbn [findall_from]; [|constructor].
    destruct (match_here M bullet_re prev []) as [m|] eqn:E; [|constructor].
    apply bullet_re_group in E as (u & -> & Hu). by repeat constructor.
  - destruct skip; cbn [findall_from]; [|apply IH].
    destruct (match_here M bullet_re prev (x :: s)) as [m|] eqn:E; [|apply IH].
    apply bullet_re_group in E as (u & -> & Hu). constructor; [done|apply IH].
Qed.

(** X4: every key concept the parser returns is non-empty, has no
    whitespace around it and no line break in it. *)
Theorem key_concepts_trimmed_lines (raw : str) :
  Forall (λ c, c ≠ [] ∧ strip c = c ∧ Forall (λ a, a ≠ LF) c)
         (key_concepts (_parse_llm_output raw)).
Proof.
  rewrite parse_direct_eq.
  destruct (parse_direct_cases raw)
    as [[_ ->] | [_ (t & u & v & span & _ & _ & _ & ->)]]; [constructor|].
  cbn [key_concepts]. unfold concepts_of, findall.
  apply Forall_fmap, Forall_forall. intros c [Hc Hin]%list_elem_of_filter.
  cbn. split; [by destruct (strip c)|]. split; [apply strip_idemp|].
  pose proof (findall_bullet_lines 0 None (strip span)) as H.
  rewrite Forall_forall in H. specialize (H c Hin).
  destruct (strip_infix c) as (a & b & Hs). rewrite Hs in H.
  apply Forall_app in H as [_ H]. by apply Forall_app in H as [H _].
Qed.

(** ** The prepared text and the way through [summarize] *)

Lemma strip_nonspace_head (x : char) (m : str) :
  is_space x = false → nonempty (strip (x :: m)) = true.
Proof.
  intros Hx. unfold strip. rewrite lstrip_fixed by done.
  by rewrite rstrip_cons_nonspace.
Qed.

Lemma truthy_get (d : gmap string pyval) (k : string) :
  truthy (get d k) = true → ∃ c v, get d k = PStr (c :: v).
Proof. destruct (get d k) as [|[|c v]]; [done..|]. eauto. Qed.

Lemma labelled_not_blank (lab r : str) :
  (∃ x l, lab = x :: l ∧ is_space x = false) →
  nonempty (strip (lab ++ r)) = true.
Proof. intros (x & l & -> & Hx). by apply strip_nonspace_head. Qed.

Ltac labelled :=
  cbn [app join]; rewrite <- ?app_assoc;
  apply labelled_not_blank; eexists _, _; split; reflexivity.

(** X5: thanks to the labels the prepared text is blank only when none of
    title, abstract and full text is there; a field of nothing but
    whitespace still yields a text that is not blank. *)
Theorem prepared_text_blank_iff (d : gmap string pyval) :
  nonempty (strip (_prepare_input_text d)) = false
  ↔ truthy (get d "title") = false
    ∧ truthy (get d "abstract") = false
    ∧ truthy (get d "full_text") = false.
Proof.
  unfold _prepare_input_text.
  destruct (truthy (get d "title")) eqn:Ht.
  { split; [|by intros [? _]]. intros H.
    match type of H with ?t = false => enough (t = true) by congruence end.
    clear H.
    destruct (truthy (get d "abstract")), (truthy (get d "full_text"));
      labelled. }
  destruct (truthy (get d "abstract")) eqn:Ha.
  { split; [|by intros (_ & ? & _)]. intros H.
    match type of H with ?t = false => enough (t = true) by congruence end.
    clear H.
    destruct (truthy (get d "full_text")); labelled. }
  destruct (truthy (get d "full_text")) eqn:Hf.
  { split; [|by intros (_ & _ & ?)]. intros H.
    match type of H with ?t = false => enough (t = true) by congruence end.
    clear H. labelled. }
  done.
Qed.

(** The line of the abstract keeps the prepared text from being blank. *)
Lemma abstract_line_not_blank (d : gmap string pyval) :
  truthy (get d "abstract") = true →
  nonempty (strip (_prepare_input_text d)) = true.
Proof.
  intros Ha. unfold _prepare_input_text. rewrite Ha.
  destruct (truthy (get d "title")), (truthy (get d "full_text")); labelled.
Qed.

Lemma abstract_passes_guard (d : gmap string pyval) :
  truthy (get d "abstract") = true →
  bool_decide (d = ∅) || negb (truthy (get d "abstract")) = false
  ∧ negb (nonempty (strip (_prepare_input_text d))) = false.
Proof.
  intros Ha. split.
  - rewrite Ha, orb_false_r. apply bool_decide_eq_false. intros ->.
    unfold get in Ha. by rewrite lookup_empty in Ha.
  - by rewrite (abstract_line_not_blank d Ha).
Qed.

Lemma empty_text_differs :
  insufficient_data ≠ empty_text ∧ empty_output ≠ empty_text
  ∧ ∀ e, internal_error e ≠ empty_text.
Proof.
  split_and!; [| |intros e]; intros H;
    by apply (f_equal (λ l : str, l !! 7%nat)) in H.
Qed.

(** X6: the return with "No text content available" is never reached:
    after the check of the abstract the prepared text holds the line of
    the abstract. *)
Theorem empty_text_unreachable (self : LlamaSummarizer)
    (article_data : option (gmap string pyval)) :
  ending_of (summarize self article_data) ≠ Failed empty_text.
Proof.
  destruct empty_text_differs as (H1 & H2 & H3).
  destruct article_data as [d|]; cbn [summarize ending_of]; [|congruence].
  pose proof (abstract_passes_guard d) as Hg.
  destruct (truthy (get d "abstract")) eqn:Ha.
  - destruct (Hg eq_refl) as [-> ->].
    destruct (split_text self (_prepare_input_text d)) as [docs|e];
      cbn [ending_of]; [|done].
    unfold after_chain.
    destruct (chain_invoke self docs) as [result|[e|name]]; [| |done].
    + destruct (negb (truthy (get_or result "output_text" (PStr []))));
        congruence.
    + specialize (H3 e). congruence.
  - rewrite orb_true_r. cbn [ending_of]. congruence.
Qed.

(** X7: with an abstract that is there and not empty [summarize] always
    gets to the splitter.  An exception of the splitter leaves
    [summarize], and the chain is not invoked; otherwise the chain is
    invoked once, on what the splitter returned, and its outcome decides
    the result. *)
Theorem summarize_after_abstract_check (self : LlamaSummarizer)
    (d : gmap string pyval) :
  truthy (get d "abstract") = true →
  match split_text self (_prepare_input_text d) with
  | Raise e =>
      returned (summarize self (Some d)) = Raise e
      ∧ chain_calls (summarize self (Some d)) = []
  | Ok docs =>
      chain_calls (summarize self (Some d)) = [docs]
      ∧ returned (summarize self (Some d))
        = value_of (after_chain (chain_invoke self docs))
  end.
Proof.
  intros Ha. unfold returned. cbn [summarize].
  destruct (abstract_passes_guard d Ha) as [-> ->].
  by destruct (split_text self (_prepare_input_text d)).
Qed.

Lemma summarize_after_abstract_check_witness :
  chain_calls (summarize answering (Some article))
  = [[py "Title: T" ++ nl ++ nl ++ py "Abstract: A"]]
  ∧ returned (summarize answering (Some article))
    = value_of (after_chain
                  (chain_invoke answering
                     [py "Title: T" ++ nl ++ nl ++ py "Abstract: A"])).
Proof.
  exact (summarize_after_abstract_check answering article
           ltac:(vm_compute; reflexivity)).
Defined.

Import Urls HalExtractor.

(** ** Searching a URL *)

Section ScanFacts.
Context (f : str → option re_match).

Lemma scan_Some (prev : option char) (s t : str) (m : re_match) :
  scan (λ _, f) prev s = Some (t, m) →
  ∃ a, s = a ++ t ∧ f t = Some m
       ∧ ∀ a1 a2, a = a1 ++ a2 → a2 ≠ [] → f (a2 ++ t) = None.
Proof.
  revert prev. induction s as [|c s IH]; intros prev; cbn [scan].
  - destruct (f []) eqn:E; [|done]. intros [= <- <-]. exists [].
    split; [done|]. split; [done|]. intros a1 a2 H. by destruct a1, a2.
  - destruct (f (c :: s)) eqn:E.
    + intros [= <- <-]. exists []. split; [done|]. split; [done|].
      intros a1 a2 H. by destruct a1, a2.
    + intros H. apply IH in H as (a & -> & Hf & Hfirst).
      exists (c :: a). split; [done|]. split; [done|].
      intros [|c1 a1] a2 Ha Hne.
      * cbn [app] in Ha. by subst a2.
      * injection Ha as <- ->. by eapply Hfirst.
Qed.

Lemma scan_None (prev : option char) (s : str) :
  scan (λ _, f) prev s = None → ∀ t, t `suffix_of` s → f t = None.
Proof.
  revert prev. induction s as [|c s IH]; intros prev; cbn [scan].
  - destruct (f []) eqn:E; [done|]. intros _ t Ht.
    by apply suffix_nil_inv in Ht as ->.
  - destruct (f (c :: s)) eqn:E; [done|]. intros H t Ht.
    destruct t as [|x t]; [eapply IH; [done|apply suffix_nil]|].
    apply suffix_cons_inv in Ht as [[= -> ->]|Ht]; [done|]. by eapply IH.
Qed.
End ScanFacts.

Lemma scan_ext (here : option char → str → option re_match)
    (f : str → option re_match) (prev : option char) (s : str) :
  (∀ prev' s', here prev' s' = f s') →
  scan here prev s = scan (λ _, f) prev s.
Proof.
  intros H. revert prev. induction s as [|c s IH]; intros prev; cbn [scan];
    rewrite H; [done|]. by rewrite IH.
Qed.

Section PlainFacts.
Context {R : Type}.

(** Without flags a literal word matches itself only. *)
Lemma rmatch_lit_plain (w s : str) (prev : option char) (g : option str)
    (k : option char → str → option str → option R) :
  rmatch plain (lit w) prev s g k
  = if startswith w s
    then k (from_option Some prev (last w)) (drop (length w) s) g
    else None.
Proof.
  revert prev s. induction w as [|p w IH]; intros prev s; [done|].
  destruct s as [|x s]; [done|].
  cbn [lit rmatch startswith char_in lit_match IGNORECASE plain].
  rewrite (N.eqb_sym x p). destruct (N.eqb_spec p x) as [->|]; [|done].
  cbn [andb].
  rewrite IH. destruct (startswith w s); [|done]. cbn [length drop].
  f_equal. destruct w as [|b u]; [reflexivity|]. rewrite last_cons_cons.
  assert (∃ y, last (b :: u) = Some y) as [y E].
  { destruct (last (b :: u)) eqn:E; [eauto|]. by apply last_None in E. }
  rewrite E. reflexivity.
Qed.

(** A greedy run before a continuation that accepts takes the longest
    run. *)
Lemma rep_greedy_leading (p : char → bool) (min : nat) (prev : option char)
    (s : str) (F : str → R) :
  rep_greedy p min prev s (λ _ s', Some (F s'))
  = if (min <=? length (leading p s))%nat
    then Some (F (after_leading p s))
    else None.
Proof.
  revert min prev. induction s as [|c s IH]; intros min prev;
    cbn [rep_greedy leading after_leading].
  - by destruct min.
  - destruct (p c).
    + rewrite IH. cbn [length].
      destruct (Nat.leb_spec (pred min) (length (leading p s))) as [H|H].
      * destruct (Nat.leb_spec min (S (length (leading p s)))); [done|lia].
      * destruct (Nat.leb_spec min (S (length (leading p s)))); [lia|].
        destruct min; [lia|done].
    + by destruct min.
Qed.
End PlainFacts.

Lemma leading_split (p : char → bool) (s : str) :
  s = leading p s ++ after_leading p s.
Proof.
  induction s as [|c s IH]; [done|]. cbn [leading after_leading].
  destruct (p c); [|done]. cbn [app]. by rewrite <- IH.
Qed.

Lemma take_before (u v s : str) :
  s = u ++ v → take (length s - length v) s = u.
Proof.
  intros ->. rewrite length_app.
  replace (length u + length v - length v)%nat with (length u) by lia.
  by rewrite take_app_length.
Qed.

Lemma leading_Forall (p : char → bool) (s : str) :
  Forall (λ a, p a = true) (leading p s).
Proof.
  induction s as [|c s IH]; [constructor|]. cbn [leading].
  destruct (p c) eqn:E; by constructor.
Qed.

Lemma leading_maximal (p : char → bool) (s : str) :
  leading p (after_leading p s) = [].
Proof.
  induction s as [|c s IH]; [done|]. cbn [after_leading].
  destruct (p c) eqn:E; [done|]. cbn [leading]. by rewrite E.
Qed.

Lemma startswith_app (w s : str) :
  startswith w s = true → s = w ++ drop (length w) s.
Proof.
  revert s. induction w as [|a w IH]; intros [|b s]; simpl; try done.
  intros [->%N.eqb_eq H]%andb_true_iff. f_equal. by apply IH.
Qed.

Lemma startswith_app_l (u v s : str) :
  startswith (u ++ v) s = startswith u s && startswith v (drop (length u) s).
Proof.
  revert s. induction u as [|a u IH]; intros s; [done|].
  destruct s as [|b s]; [done|]. cbn [app startswith length drop].
  rewrite IH. by destruct (a =? b).
Qed.

(** ** The HAL id *)

Lemma hal_re_here (prev : option char) (s : str) :
  match_here plain HalExtractor.hal_re prev s
  = if hal_id_here s
    then Some {| rest := after_leading is_digit (drop 4 s);
                 group := Some (leading is_digit (drop 4 s)) |}
    else None.
Proof.
  unfold match_here, HalExtractor.hal_re, hal_id_here. cbn [rmatch].
  rewrite rmatch_lit_plain. destruct (startswith (py "hal-") s); [|done].
  cbn [andb rmatch]. change (length (py "hal-")) with 4%nat.
  change (char_in plain CDigit) with is_digit.
  set (t := drop 4 s).
  rewrite (rep_greedy_leading is_digit 1 _ t
             (λ s', {| rest := s';
                       group := Some (take (length t - length s') t) |})).
  destruct (leading is_digit t) as [|d ds] eqn:E; [done|].
  cbn [length Nat.leb nonempty]. do 3 f_equal.
  rewrite <- E. apply take_before, leading_split.
Qed.

(** X8: the id [HalExtractor] queries is "hal-" and the digits behind it,
    copied from the first place of the URL where "hal-" is followed by a
    digit; what follows the digits, a version for instance, is dropped.
    A URL without such a place raises [ValueError], and no request is
    made. *)
Theorem hal_query_id {A : Type} (request : str → outcome A) (url : str) :
  (∃ a ds b,
     url = a ++ py "hal-" ++ ds ++ b
     ∧ ds ≠ [] ∧ Forall (λ c, is_digit c = true) ds
     ∧ leading is_digit b = []
     ∧ (∀ a1 a2, a = a1 ++ a2 → a2 ≠ [] →
                 hal_id_here (a2 ++ py "hal-" ++ ds ++ b) = false)
     ∧ HalExtractor.extract_from_url request url
       = request (py "docid:hal-" ++ ds))
  ∨ ((∀ t, t `suffix_of` url → hal_id_here t = false)
     ∧ HalExtractor.extract_from_url request url = Raise ValueError).
Proof.
  unfold HalExtractor.extract_from_url.
  rewrite (scan_ext _ _ _ _ hal_re_here).
  destruct (scan _ None url) as [[t m]|] eqn:E.
  - left. apply scan_Some in E as (a & -> & Hm & Hfirst).
    destruct (hal_id_here t) eqn:Ht; [|done]. injection Hm as <-.
    apply andb_true_iff in Ht as [Hs Hd].
    pose proof (startswith_app _ _ Hs) as Et.
    change (length (py "hal-")) with 4%nat in Et.
    pose proof (leading_split is_digit (drop 4 t)) as Er.
    set (ds := leading is_digit (drop 4 t)) in *.
    set (b := after_leading is_digit (drop 4 t)) in *.
    assert (t = py "hal-" ++ ds ++ b) as Ht' by (by rewrite <- Er).
    exists a, ds, b. split_and!.
    + by rewrite <- Ht'.
    + by destruct ds.
    + apply leading_Forall.
    + apply leading_maximal.
    + intros a1 a2 Ha Hne. specialize (Hfirst a1 a2 Ha Hne).
      rewrite <- Ht'. by destruct (hal_id_here (a2 ++ t)).
    + unfold group0. cbn [fst snd rest].
      assert (take (length t - length b) t = py "hal-" ++ ds) as ->.
      { apply take_before. by rewrite <- app_assoc. }
      unfold HalExtractor.extract_by_id. reflexivity.
  - right. split; [|done]. intros t Ht.
    pose proof (scan_None _ _ _ E t Ht) as H. cbv beta in H.
    by destruct (hal_id_here t).
Qed.

Lemma hal_extract_eq {A : Type} (request : str → outcome A) (url : str) :
  HalExtractor.extract_from_url request url
  = match Helper.extract_hal_id url with
    | Some hal_id => request (py "docid:" ++ hal_id)
    | None => Raise ValueError
    end.
Proof.
  unfold HalExtractor.extract_from_url, Helper.extract_hal_id.
  change Helper.hal_re with HalExtractor.hal_re.
  destruct (scan _ None url) as [[t m]|] eqn:E; [|done].
  rewrite (scan_ext _ _ _ _ hal_re_here) in E.
  apply scan_Some in E as (a & -> & Hm & _).
  destruct (hal_id_here t) eqn:Ht; [|done]. injection Hm as <-.
  apply andb_true_iff in Ht as [Hs _].
  unfold HalExtractor.extract_by_id, group0. cbn [fst snd rest].
  pose proof (startswith_app _ _ Hs) as Et.
  change (length (py "hal-")) with 4%nat in Et.
  pose proof (leading_split is_digit (drop 4 t)) as Er.
  assert (take (length t - length (after_leading is_digit (drop 4 t))) t
          = py "hal-" ++ leading is_digit (drop 4 t)) as ->.
  { apply take_before. by rewrite <- app_assoc, <- Er. }
  reflexivity.
Qed.

(** X9: [extract_hal_id] of the helpers finds exactly the id that
    [HalExtractor.extract_from_url] queries.  It finds none exactly for
    the URLs that the extractor refuses by itself: those on which it
    raises [ValueError] whatever the request would answer.  (A
    [ValueError] that the request raises, for a document that is not
    found, is the request's outcome and comes after the id was found.) *)
Theorem helper_hal_id_agrees (url : str) :
  (∀ (A : Type) (request : str → outcome A),
     HalExtractor.extract_from_url request url
     = match Helper.extract_hal_id url with
       | Some hal_id => request (py "docid:" ++ hal_id)
       | None => Raise ValueError
       end)
  ∧ (Helper.extract_hal_id url = None
     ↔ ∀ (A : Type) (request : str → outcome A),
         HalExtractor.extract_from_url request url = Raise ValueError).
Proof.
  split; [intros A request; apply hal_extract_eq|]. split.
  - intros H A request. by rewrite hal_extract_eq, H.
  - intros H. specialize (H unit (λ _, Ok ())).
    rewrite hal_extract_eq in H.
    by destruct (Helper.extract_hal_id url).
Qed.

Import ArxivExtractor.

(** ** The arXiv id *)

Lemma rmatch_seq {R : Type} (fl : flags) (r1 r2 : regex)
    (prev : option char) (s : str) (g : option str)
    (k : option char → str → option str → option R) :
  rmatch fl (Seq r1 r2) prev s g k
  = rmatch fl r1 prev s g (λ prev' s' g', rmatch fl r2 prev' s' g' k).
Proof. reflexivity. Qed.

Lemma rmatch_alt {R : Type} (fl : flags) (r1 r2 : regex)
    (prev : option char) (s : str) (g : option str)
    (k : option char → str → option str → option R) :
  rmatch fl (Alt r1 r2) prev s g k
  = match rmatch fl r1 prev s g k with
    | Some x => Some x
    | None => rmatch fl r2 prev s g k
    end.
Proof. reflexivity. Qed.

Lemma id_here_eq (prev : option char) (s : str) :
  id_here prev s
  = if arxiv_id_here s
    then Some {| rest := after_leading id_char (drop 5 s);
                 group := Some (leading id_char (drop 5 s)) |}
    else None.
Proof.
  unfold id_here, path_re, arxiv_id_here.
  change (py "/abs/") with (py "/" ++ py "abs" ++ py "/").
  change (py "/pdf/") with (py "/" ++ py "pdf" ++ py "/").
  rewrite !startswith_app_l, !drop_drop.
  change (length (py "/") + length (py "abs"))%nat with 4%nat.
  change (length (py "/") + length (py "pdf"))%nat with 4%nat.
  change (length (py "/")) with 1%nat.
  rewrite rmatch_seq, rmatch_lit_plain.
  destruct (startswith (py "/") s); [|done]. cbn [andb].
  change (length (py "/")) with 1%nat.
  rewrite rmatch_seq, rmatch_alt, !rmatch_lit_plain, !drop_drop.
  change (4 + length (py "/"))%nat with 5%nat.
  change (1 + length (py "abs"))%nat with 4%nat.
  change (1 + length (py "pdf"))%nat with 4%nat.
  set (t := drop 5 s). unfold accept.
  rewrite !(rep_greedy_leading id_char 1 _ t
              (λ s', {| rest := s';
                        group := Some (take (length t - length s') t) |})).
  assert (take (length t - length (after_leading id_char t)) t
          = leading id_char t)
    as -> by apply take_before, leading_split.
  destruct (startswith (py "abs") (drop 1 s)),
    (startswith (py "pdf") (drop 1 s)),
    (startswith (py "/") (drop 4 s)),
    (leading id_char t) as [|c cs]; reflexivity.
Qed.

Lemma scan_first (f : str → option re_match) (prev : option char)
    (p t : str) (m : re_match) :
  f t = Some m →
  (∀ a1 a2, p = a1 ++ a2 → a2 ≠ [] → f (a2 ++ t) = None) →
  scan (λ _, f) prev (p ++ t) = Some (t, m).
Proof.
  intros Hm. revert prev. induction p as [|c p IH]; intros prev Hfirst.
  - cbn [app]. destruct t; cbn [scan]; by rewrite Hm.
  - pose proof (Hfirst [] (c :: p) eq_refl ltac:(done)) as Hc.
    cbn [app] in Hc. cbn [app scan]. rewrite Hc.
    apply IH. intros a1 a2 -> Hne. by apply (Hfirst (c :: a1) a2).
Qed.

Lemma arxiv_scan (url : str) :
  match scan id_here None url with
  | Some (t, m) =>
      ∃ a, url = a ++ t ∧ arxiv_id_here t = true
           ∧ m = {| rest := after_leading id_char (drop 5 t);
                    group := Some (leading id_char (drop 5 t)) |}
           ∧ ∀ a1 a2, a = a1 ++ a2 → a2 ≠ [] →
                      arxiv_id_here (a2 ++ t) = false
  | None => ∀ t, t `suffix_of` url → arxiv_id_here t = false
  end.
Proof.
  rewrite (scan_ext _ _ _ _ id_here_eq).
  destruct (scan _ None url) as [[t m]|] eqn:E.
  - apply scan_Some in E as (a & -> & Hm & Hfirst). exists a.
    destruct (arxiv_id_here t) eqn:Ht; [|done]. injection Hm as <-.
    split_and!; [done..|]. intros a1 a2 Ha Hne.
    specialize (Hfirst a1 a2 Ha Hne). cbv beta in Hfirst.
    by destruct (arxiv_id_here (a2 ++ t)).
  - intros t Ht. pose proof (scan_None _ _ _ E t Ht) as H. cbv beta in H.
    by destruct (arxiv_id_here t).
Qed.

Lemma id_char_spec (c : char) : id_char c = true ↔ c ≠ 63 ∧ c ≠ 35.
Proof.
  unfold id_char. rewrite negb_true_iff, orb_false_iff, !N.eqb_neq. done.
Qed.

Lemma arxiv_id_here_split (t : str) :
  arxiv_id_here t = true →
  ∃ mk, (mk = py "/abs/" ∨ mk = py "/pdf/")
        ∧ t = mk ++ leading id_char (drop 5 t)
                 ++ after_leading id_char (drop 5 t)
        ∧ leading id_char (drop 5 t) ≠ [].
Proof.
  intros [Hs Hd]%andb_true_iff. apply orb_true_iff in Hs as [Hs|Hs].
  - exists (py "/abs/"). split; [by left|]. split.
    + rewrite <- leading_split. apply (startswith_app _ _ Hs).
    + by destruct (leading id_char (drop 5 t)).
  - exists (py "/pdf/"). split; [by right|]. split.
    + rewrite <- leading_split. apply (startswith_app _ _ Hs).
    + by destruct (leading id_char (drop 5 t)).
Qed.

Lemma without_pdf_prefix (article_id : str) :
  without_pdf article_id `prefix_of` article_id.
Proof.
  unfold without_pdf. destruct (ends_with_pdf article_id); [|done].
  apply prefix_take.
Qed.


(** X11: [extract_by_id] is only ever handed a non-empty piece of the URL
    without [?] and [#]; every other URL ends in [ValueError]. *)
Theorem arxiv_id_handed_on {A : Type} (extract_by_id : str → outcome A)
    (url : str) :
  extract_from_url extract_by_id url = Raise ValueError
  ∨ ∃ a article_id b,
      url = a ++ article_id ++ b
      ∧ article_id ≠ [] ∧ Forall (λ c, c ≠ 63 ∧ c ≠ 35) article_id
      ∧ extract_from_url extract_by_id url = extract_by_id article_id.
Proof.
  unfold extract_from_url. pose proof (arxiv_scan url) as H.
  destruct (scan id_here None url) as [[t m]|]; [|by left].
  destruct H as (a & -> & Ht & -> & _). cbn [snd group].
  destruct (arxiv_id_here_split t Ht) as (mk & _ & Et & _).
  set (r := leading id_char (drop 5 t)) in *.
  destruct (nonempty (without_pdf r)) eqn:En; [right|by left].
  destruct (without_pdf_prefix r) as [e Er].
  exists (a ++ mk), (without_pdf r), (e ++ after_leading id_char (drop 5 t)).
  split_and!.
  - rewrite Et at 1. rewrite Er at 1. by rewrite <- !app_assoc.
  - by destruct (without_pdf r).
  - assert (Forall (λ c, c ≠ 63 ∧ c ≠ 35) r) as Hr.
    { eapply Forall_impl; [apply leading_Forall|]. intros c.
      apply id_char_spec. }
    rewrite Er in Hr. by apply Forall_app in Hr as [Hr _].
  - done.
Qed.

Lemma contains_startswith (w a t : str) :
  startswith w t = true → contains w (a ++ t) = true.
Proof.
  intros H. induction a as [|c a IH].
  - destruct t; cbn [app contains]; by rewrite H.
  - cbn [app contains]. rewrite IH. apply orb_true_r.
Qed.

Lemma contains_false_suffix (w s t : str) :
  contains w s = false → t `suffix_of` s → startswith w t = false.
Proof.
  intros H [a ->]. destruct (startswith w t) eqn:E; [|done].
  by rewrite (contains_startswith w a t E) in H.
Qed.



Lemma leading_app (p : char → bool) (u v : str) :
  Forall (λ c, p c = true) u → leading p v = [] →
  leading p (u ++ v) = u ∧ after_leading p (u ++ v) = v.
Proof.
  intros Hu Hv. induction Hu as [|c u Hc Hu IH]; cbn [app].
  - split; [done|]. destruct v as [|x v]; [done|].
    cbn [leading after_leading] in *.
    by destruct (p x).
  - cbn [leading after_leading]. rewrite Hc. destruct IH as [-> ->]. done.
Qed.





(** Why the prefix is taken with a slash behind it: a prefix that ends in
    "/pdf" makes a marker with the slash of "/abs/", and the id read is
    another one. *)
Lemma prefix_ending_in_marker :
  ArxivExtractor.extract_from_url (λ i, Ok i)
    (py "https://x/pdf" ++ py "/abs/" ++ py "2301.1")
  = Ok (py "abs/2301.1").
Proof. vm_compute. reflexivity. Qed.

Import Helper.

(** ** The arXiv id of the helpers *)

(** A greedy run gives back nothing when what follows the pattern cannot
    begin with a character of the run. *)
Lemma rep_greedy_stop {R : Type} (p : char → bool) (min : nat)
    (prev : option char) (s : str) (k : option char → str → option R)
    (k' : str → option R) :
  (∀ prev' s', k prev' s' = k' s') →
  (∀ c s', p c = true → k' (c :: s') = None) →
  rep_greedy p min prev s k
  = if (min <=? length (leading p s))%nat then k' (after_leading p s) else None.
Proof.
  intros Hk Hstop. revert min prev.
  induction s as [|x s IH]; intros min prev;
    cbn [rep_greedy leading after_leading].
  - rewrite Hk. by destruct min.
  - destruct (p x) eqn:Hx.
    + rewrite IH, Hk, (Hstop x s Hx). cbn [length].
      destruct (Nat.leb_spec (pred min) (length (leading p s))) as [H|H].
      * destruct (Nat.leb_spec min (S (length (leading p s)))); [|lia].
        destruct (k' (after_leading p s)); [done|]. by destruct min.
      * destruct (Nat.leb_spec min (S (length (leading p s)))); [lia|].
        by destruct min.
    + rewrite Hk. by destruct min.
Qed.

Lemma branch_here {R : Type} (c : cclass) (sep : char)
    (prev : option char) (s : str) (g : option str) (F : str → R) :
  char_in plain c sep = false →
  rmatch plain
    (Seq (Rep c 1 true) (Seq (Chr (CLit sep)) (Rep CDigit 1 true)))
    prev s g (λ _ s' _, Some (F s'))
  = match id_at (char_in plain c) sep s with
    | Some r => Some (F r)
    | None => None
    end.
Proof.
  intros Hsep. cbn [rmatch].
  rewrite (rep_greedy_stop _ 1 prev s _
             (λ s', match s' with
                    | x :: s'' =>
                        if x =? sep
                        then if (1 <=? length (leading is_digit s''))%nat
                             then Some (F (after_leading is_digit s''))
                             else None
                        else None
                    | [] => None
                    end)).
  - unfold id_at. destruct (leading (char_in plain c) s) as [|r0 r]; [done|].
    cbn [length Nat.leb nonempty andb].
    destruct (after_leading (char_in plain c) s) as [|x t]; [done|].
    cbn [startswith drop]. rewrite (N.eqb_sym sep x), andb_true_r.
    destruct (x =? sep); [|done]. cbn [andb]. rewrite drop_0.
    by destruct (leading is_digit t).
  - intros prev' [|x s']; [done|].
    cbn [char_in lit_match IGNORECASE plain].
    destruct (x =? sep); [|done].
    change (char_in plain CDigit) with is_digit.
    apply (rep_greedy_leading is_digit 1 (Some x) s' F).
  - intros x s' Hx. destruct (N.eqb_spec x sep) as [->|]; [|done].
    congruence.
Qed.

Lemma arxiv_re_here (prev : option char) (s : str) :
  match_here plain arxiv_re prev s
  = match arxiv_id_rest s with
    | Some r => Some {| rest := r;
                        group := Some (take (length s - length r) s) |}
    | None => None
    end.
Proof.
  unfold match_here, arxiv_re, arxiv_id_rest, accept.
  change (rmatch plain (Group ?r) prev s None ?k)
    with (rmatch plain r prev s None
            (λ prev' s' _, k prev' s' (Some (take (length s - length s') s)))).
  rewrite rmatch_alt.
  rewrite !(branch_here _ _ prev s None
              (λ s', {| rest := s';
                        group := Some (take (length s - length s') s) |}));
    [|reflexivity..].
  change (char_in plain CDigit) with is_digit.
  by destruct (id_at is_digit 46 s).
Qed.

Lemma leading_app_cases (p : char → bool) (a y : str) :
  (after_leading p a = [] ∧ leading p (a ++ y) = a ++ leading p y
   ∧ after_leading p (a ++ y) = after_leading p y ∧ leading p a = a)
  ∨ (∃ c t, after_leading p a = c :: t ∧ leading p (a ++ y) = leading p a
            ∧ after_leading p (a ++ y) = c :: t ++ y).
Proof.
  induction a as [|x a IH]; [by left|]. cbn [app leading after_leading].
  destruct (p x) eqn:Hx.
  - destruct IH as [(H1 & H2 & H3 & H4)|(c & t & H1 & H2 & H3)].
    + left. by rewrite H1, H2, H3, H4.
    + right. exists c, t. by rewrite H1, H2, H3.
  - right. by exists x, a.
Qed.

(** An alternative of the pattern that fails on a text still fails when
    a slash and a letter follow the text. *)
Lemma id_at_boundary (p : char → bool) (sep y0 y1 : char) (a x : str) :
  p y0 = false → is_digit y0 = false → is_digit y1 = false →
  id_at p sep a = None →
  id_at p sep (a ++ y0 :: y1 :: x) = None.
Proof.
  intros Hp H0 H1. unfold id_at.
  destruct (leading_app_cases p a (y0 :: y1 :: x))
    as [(E1 & E2 & E3 & E4)|(c & t & E1 & E2 & E3)].
  - intros _. rewrite E2, E3. cbn [leading after_leading]. rewrite Hp.
    cbn [startswith drop]. rewrite ?drop_0. cbn [leading]. rewrite H1.
    by rewrite andb_false_r.
  - rewrite E1, E2, E3. cbn [startswith drop]. rewrite ?drop_0.
    destruct (nonempty (leading p a)); [|done].
    destruct (sep =? c); [|done]. cbn [andb].
    destruct t as [|t0 t]; cbn [app leading]; [by rewrite H0|].
    by destruct (is_digit t0).
Qed.

Lemma arxiv_id_rest_boundary (a x : str) :
  arxiv_id_rest a = None → arxiv_id_rest (a ++ py "/a" ++ x) = None.
Proof.
  unfold arxiv_id_rest. destruct (id_at is_digit 46 a) eqn:E1; [done|].
  intros E2. change (py "/a" ++ x) with (47 :: 97 :: x).
  rewrite (id_at_boundary is_digit 46 47 97 a x); [|done..].
  apply id_at_boundary; done.
Qed.

(** X13: for the URL of an abstract page, [extract_arxiv_id] of the
    helpers returns "abs/" and the digits that begin the id, not the id:
    its alternative of letters, a slash and digits matches first. *)
Theorem helper_arxiv_id_of_abs_url (p ds r : str) :
  extract_arxiv_id p = None →
  ds ≠ [] → Forall (λ c, is_digit c = true) ds →
  leading is_digit r = [] →
  extract_arxiv_id (p ++ py "/abs/" ++ ds ++ r) = Some (py "abs/" ++ ds).
Proof.
  intros Hp Hne Hds Hr. unfold extract_arxiv_id in *.
  rewrite (scan_ext _ _ _ _ arxiv_re_here) in Hp.
  rewrite (scan_ext _ _ _ _ arxiv_re_here).
  destruct (scan _ None p) eqn:E; [done|]. clear Hp.
  destruct (leading_app is_digit ds r Hds Hr) as [Hrun Hskip].
  set (t := py "abs/" ++ ds ++ r).
  assert (arxiv_id_rest t = Some r) as Ht.
  { unfold arxiv_id_rest, id_at.
    change (leading is_digit t) with (@nil char).
    change (leading (char_in plain (COneOf a_z)) t) with (py "abs").
    change (after_leading (char_in plain (COneOf a_z)) t) with (47 :: ds ++ r).
    cbn [nonempty andb startswith drop]. rewrite drop_0, Hrun, Hskip.
    by destruct ds. }
  change (p ++ py "/abs/" ++ ds ++ r) with (p ++ py "/" ++ t).
  rewrite app_assoc.
  rewrite (scan_first _ None (p ++ py "/") t
             {| rest := r; group := Some (take (length t - length r) t) |}).
  - unfold group0. cbn [fst snd rest]. f_equal.
    apply take_before. unfold t. by rewrite <- app_assoc.
  - by rewrite Ht.
  - intros a1 a2 Ha Hne2.
    assert (arxiv_id_rest (a2 ++ t) = None) as ->; [|done].
    destruct a2 as [|z a _] using rev_ind; [done|].
    rewrite app_assoc in Ha. apply app_inj_tail in Ha as [-> <-].
    destruct a as [|a0 a]; [done|].
    assert ((a0 :: a) `suffix_of` a1 ++ a0 :: a) as Ha2 by by exists a1.
    rewrite <- app_assoc.
    apply (arxiv_id_rest_boundary (a0 :: a) (py "bs/" ++ ds ++ r)).
    pose proof (scan_None _ _ _ E _ Ha2) as H. cbv beta in H.
    by destruct (arxiv_id_rest (a0 :: a)).
Qed.

Lemma helper_arxiv_id_of_abs_url_witness :
  extract_arxiv_id
    (py "https://arxiv.org" ++ py "/abs/" ++ py "2301" ++ py ".12345v2")
  = Some (py "abs/" ++ py "2301").
Proof.
  apply (helper_arxiv_id_of_abs_url (py "https://arxiv.org") (py "2301")
           (py ".12345v2")).
  - vm_compute. reflexivity.
  - discriminate.
  - repeat constructor.
  - reflexivity.
Defined.

(** ** The dispatch on the URL *)

Lemma scan_None_intro (f : str → option re_match) (prev : option char)
    (s : str) :
  (∀ t, t `suffix_of` s → f t = None) → scan (λ _, f) prev s = None.
Proof.
  revert prev. induction s as [|c s IH]; intros prev H; cbn [scan].
  - by rewrite (H [] (suffix_nil _)).
  - rewrite (H (c :: s)); [|done]. apply IH. intros t Ht. apply H.
    by apply suffix_cons_r.
Qed.

Lemma no_marker_no_hal_id (url : str) :
  contains (py "hal-") url = false → Helper.extract_hal_id url = None.
Proof.
  intros H. unfold Helper.extract_hal_id.
  change Helper.hal_re with HalExtractor.hal_re.
  rewrite (scan_ext _ _ _ _ hal_re_here), scan_None_intro; [done|].
  intros t Ht. unfold hal_id_here.
  by rewrite (contains_false_suffix _ _ _ H Ht).
Qed.

(** X14: [extract_article] takes every URL with "arxiv.org" in it to the
    arXiv extractor, also the URL of a HAL document; of the others
    exactly those with "hal-" and a digit behind it lead to a request to
    HAL, and the rest raise [ValueError], in the HAL extractor or in
    [extract_article] itself. *)
Theorem extract_article_outcome {A : Type}
    (extract_by_id request : str → outcome A) (url : str) :
  Routes.extract_article (ArxivExtractor.extract_from_url extract_by_id)
    (HalExtractor.extract_from_url request) url
  = if contains (py "arxiv.org") url
    then ArxivExtractor.extract_from_url extract_by_id url
    else match Helper.extract_hal_id url with
         | Some hal_id => request (py "docid:" ++ hal_id)
         | None => Raise ValueError
         end.
Proof.
  unfold Routes.extract_article.
  destruct (contains (py "arxiv.org") url); [done|].
  rewrite hal_extract_eq.
  pose proof (no_marker_no_hal_id url) as H.
  destruct (contains (py "hal-") url).
  - by rewrite orb_true_r.
  - rewrite orb_false_r, H; [|done].
    by destruct (contains (py "hal.archives-ouvertes.fr") url).
Qed.

Lemma extract_article_dispatch {A : Type}
    (arxiv_extract_from_url hal_extract_from_url : str → outcome A)
    (url : str) :
  Routes.extract_article arxiv_extract_from_url hal_extract_from_url url
  = match Helper.detect_source_from_url url with
    | Some source =>
        if bool_decide (source = py "arxiv") then arxiv_extract_from_url url
        else hal_extract_from_url url
    | None => Raise ValueError
    end.
Proof.
  unfold Routes.extract_article, Helper.detect_source_from_url.
  destruct (contains (py "arxiv.org") url); [done|].
  by destruct (contains _ url || contains _ url).
Qed.

(** X15: [extract_article] hands the URL to the extractor that
    [detect_source_from_url] names.  It raises [ValueError] by itself,
    whatever the extractors would do, exactly for the URLs whose source
    is not detected.  A URL whose source is detected may still end in a
    [ValueError] of the extractor chosen: the URL of the third part has
    "arxiv.org" in it and no id. *)
Theorem extract_article_follows_detected_source (url : str) :
  (∀ (A : Type)
     (arxiv_extract_from_url hal_extract_from_url : str → outcome A),
     Routes.extract_article arxiv_extract_from_url hal_extract_from_url url
     = match Helper.detect_source_from_url url with
       | Some source =>
           if bool_decide (source = py "arxiv")
           then arxiv_extract_from_url url
           else hal_extract_from_url url
       | None => Raise ValueError
       end)
  ∧ (Helper.detect_source_from_url url = None
     ↔ ∀ (A : Type)
         (arxiv_extract_from_url hal_extract_from_url : str → outcome A),
         Routes.extract_article arxiv_extract_from_url hal_extract_from_url
           url
         = Raise ValueError)
  ∧ Helper.detect_source_from_url (py "https://arxiv.org/foo")
    = Some (py "arxiv")
    ∧ ∀ (A : Type) (extract_by_id request : str → outcome A),
        Routes.extract_article
          (ArxivExtractor.extract_from_url extract_by_id)
          (HalExtractor.extract_from_url request)
          (py "https://arxiv.org/foo")
        = Raise ValueError.
Proof.
  split; [intros A ax hal; apply extract_article_dispatch|]. split.
  - split.
    + intros H A ax hal. by rewrite extract_article_dispatch, H.
    + intros H. specialize (H unit (λ _, Ok ()) (λ _, Ok ())).
      rewrite extract_article_dispatch in H.
      destruct (Helper.detect_source_from_url url) as [source|]; [|done].
      by destruct (bool_decide (source = py "arxiv")).
  - split; [reflexivity|]. intros A extract_by_id request. reflexivity.
Qed.
